(** * Cop and Robber game: a shallow embedding of [game.cpp]

    The game state of [class Game] is a record, every member function is a
    function on it, and the three external collaborators of the program are
    explicit:
    - the arithmetic of C++ [float] is the class [Scalar], instantiated
      below at IEEE-754 binary32 (every operation rounded to nearest even, as
      [SpecFloat] defines it);
    - raylib and libm ([CheckCollision*], [GetScreenWidth], [atan2f]) are the
      class [Raylib];
    - the keyboard is a per-frame [Input], and [rand()] is the list of the
      values it returns, consumed from the front.

    The [int] members are integers of [Z]: between two frames the level
    stays within 1..4 and the score below 5 (see [invariant]), so no [int]
    of the program comes near its bounds. *)

From Stdlib Require Import ZArith List Bool Lia.
From Stdlib Require Import Reals Lra.
From Stdlib Require Import Floats.SpecFloat.
Import ListNotations.

Set Implicit Arguments.
Local Open Scope Z_scope.

(** ** Arithmetic of [float] *)

Class Scalar (F : Type) : Type := {
  fadd : F -> F -> F;
  fsub : F -> F -> F;
  fmul : F -> F -> F;
  fdiv : F -> F -> F;
  fneg : F -> F;
  sqrtf : F -> F;
  feqb : F -> F -> bool;
  fltb : F -> F -> bool;
  (** conversion of an [int] to [float] *)
  of_int : Z -> F;
  (** [static_cast<int>] of a [float]: truncation toward zero *)
  to_int : F -> Z;
  (** the literal [m * 2^e] *)
  dyadic : Z -> Z -> F
}.

Declare Scope float_scope.
Delimit Scope float_scope with flt.
Infix "+" := fadd : float_scope.
Infix "-" := fsub : float_scope.
Infix "*" := fmul : float_scope.
Infix "/" := fdiv : float_scope.
Notation "- a" := (fneg a) : float_scope.
Infix "<?" := fltb : float_scope.
Notation "a >? b" := (fltb b a) : float_scope.
Notation "a != b" := (negb (feqb a b)) (at level 70) : float_scope.

(** IEEE-754 binary32: 24 bits of precision, infinities at exponent 128. *)
Module Binary32.
Definition prec : Z := 24.
Definition emax : Z := 128.
Definition float : Type := spec_float.

Definition literal (m e : Z) : float := binary_normalize prec emax m e false.

(** The conversion is undefined in C++ on infinities and NaN; it is given
    the value 0 there. *)
Definition truncate (f : float) : Z :=
  match f with
  | S754_finite s m e =>
      let n := if 0 <=? e then Z.shiftl (Zpos m) e else Z.shiftr (Zpos m) (- e) in
      if s then - n else n
  | _ => 0
  end.

#[global] Instance scalar : Scalar float := {|
  fadd := SFadd prec emax;
  fsub := SFsub prec emax;
  fmul := SFmul prec emax;
  fdiv := SFdiv prec emax;
  fneg := SFopp;
  sqrtf := SFsqrt prec emax;
  feqb := SFeqb;
  fltb := SFltb;
  of_int := fun z => literal z 0;
  to_int := truncate;
  dyadic := literal
|}.
End Binary32.

(** ** raylib value types *)

Section Types.
Variable F : Type.

Record Vector2 : Type := mkVector2 { x : F; y : F }.

Record Rectangle : Type := mkRectangle {
  rec_x : F; rec_y : F; width : F; height : F
}.
End Types.

Arguments mkVector2 {F} _ _.
Arguments mkRectangle {F} _ _ _ _.

Inductive Color : Type := GRAY | BROWN | BLUE | RED | GOLD | GREEN | PINK.

Inductive KeyboardKey : Type := KEY_W | KEY_S | KEY_A | KEY_D | KEY_R.

(** What the keyboard answers during one frame. *)
Record Input : Type := mkInput {
  IsKeyDown : KeyboardKey -> bool;
  IsKeyPressed : KeyboardKey -> bool
}.

(** The functions of raylib and libm that the game calls.  The window is
    created once by [InitWindow] and is not resizable, so its size is a
    constant of the environment. *)
Class Raylib (F : Type) : Type := {
  CheckCollisionCircleRec : Vector2 F -> F -> Rectangle F -> bool;
  CheckCollisionCircles : Vector2 F -> F -> Vector2 F -> F -> bool;
  CheckCollisionPointRec : Vector2 F -> Rectangle F -> bool;
  GetScreenWidth : Z;
  GetScreenHeight : Z;
  atan2f : F -> F -> F
}.

(** ** [class VectorUtils] *)

Module VectorUtils.
Section VectorUtils.
Context {F : Type} {SF : Scalar F}.
Local Open Scope float_scope.

Definition Subtract (v1 v2 : Vector2 F) : Vector2 F :=
  mkVector2 (x v1 - x v2) (y v1 - y v2).

Definition Length (v : Vector2 F) : F :=
  sqrtf (x v * x v + y v * y v).

Definition Scale (v : Vector2 F) (scale : F) : Vector2 F :=
  mkVector2 (x v * scale) (y v * scale).

Definition Add (v1 v2 : Vector2 F) : Vector2 F :=
  mkVector2 (x v1 + x v2) (y v1 + y v2).

Definition Normalize (v : Vector2 F) : Vector2 F :=
  let length := Length v in
  if length != of_int 0 then
    Scale v (dyadic 1 0 / length)
  else
    mkVector2 (dyadic 0 0) (dyadic 0 0).
End VectorUtils.
End VectorUtils.


Import VectorUtils.

(** ** Entities *)

Section Entities.
Variable F : Type.

(** [class Wall], [class Door], [class Coin], [class SlowingZone] *)
Record Wall : Type := mkWall { rect : Rectangle F }.

Record Door : Type := mkDoor { door_rect : Rectangle F; isOpen : bool }.

Record Coin : Type := mkCoin { coin_position : Vector2 F; collected : bool }.

Record SlowingZone : Type := mkSlowingZone {
  zone_rect : Rectangle F; slowEffect : F
}.

(** [class Character]; [Robber] adds no member, [Cop] adds [rotation]. *)
Record Character : Type := mkCharacter {
  position : Vector2 F; radius : Z; color : Color; speed : F
}.

Definition Robber : Type := Character.

Record Cop : Type := mkCop { character :> Character; rotation : F }.

Definition set_position (p : Vector2 F) (c : Character) : Character :=
  mkCharacter p (radius c) (color c) (speed c).

Definition set_speed (s : F) (c : Character) : Character :=
  mkCharacter (position c) (radius c) (color c) s.

Definition set_collected (b : bool) (c : Coin) : Coin :=
  mkCoin (coin_position c) b.
End Entities.

Arguments mkWall {F} _.
Arguments mkDoor {F} _ _.
Arguments mkCoin {F} _ _.
Arguments mkSlowingZone {F} _ _.
Arguments mkCharacter {F} _ _ _ _.
Arguments mkCop {F} _ _.

(** [PI] of raylib.h, [3.14159265358979323846f], is the binary32 number
    [13176795 * 2^-22]. *)
Definition PI {F : Type} {SF : Scalar F} : F := dyadic 13176795 (-22).

Section Characters.
Context {F : Type} {SF : Scalar F} {RL : Raylib F}.
Local Open Scope float_scope.

(** *** [Robber::move()] *)
Definition Robber_move (input : Input) (r : Robber F) : Robber F :=
  let position := position r in
  let position :=
    if IsKeyDown input KEY_W && (y position - of_int (radius r) >? of_int 0)
    then mkVector2 (x position) (y position - speed r) else position in
  let position :=
    if IsKeyDown input KEY_S
       && (y position + of_int (radius r) <? of_int GetScreenHeight)
    then mkVector2 (x position) (y position + speed r) else position in
  let position :=
    if IsKeyDown input KEY_A && (x position - of_int (radius r) >? of_int 0)
    then mkVector2 (x position - speed r) (y position) else position in
  let position :=
    if IsKeyDown input KEY_D
       && (x position + of_int (radius r) <? of_int GetScreenWidth)
    then mkVector2 (x position + speed r) (y position) else position in
  set_position position r.

(** *** [Cop::move(Character*, const std::vector<Wall*>&)] *)

(** The body of the [if] inside the loop: the two sidesteps, each tested
    against [wall] only. *)
Definition deflect (c : Cop F) (direction : Vector2 F) (wall : Wall F)
  : Vector2 F :=
  let perpendicularDirection := mkVector2 (- y direction) (x direction) in
  let nextPosition1 :=
    Add (position c) (Scale perpendicularDirection (speed c)) in
  let nextPosition2 :=
    Add (position c) (Scale perpendicularDirection (- speed c)) in
  if negb (CheckCollisionCircleRec nextPosition1 (of_int (radius c)) (rect wall))
  then nextPosition1
  else if negb (CheckCollisionCircleRec nextPosition2 (of_int (radius c)) (rect wall))
  then nextPosition2
  else position c.

(** The loop over the walls, left at the first wall that overlaps. *)
Fixpoint avoid (c : Cop F) (direction nextPosition : Vector2 F)
  (walls : list (Wall F)) : Vector2 F :=
  match walls with
  | [] => nextPosition
  | wall :: walls' =>
      if CheckCollisionCircleRec nextPosition (of_int (radius c)) (rect wall)
      then deflect c direction wall
      else avoid c direction nextPosition walls'
  end.

(** "Ensure cop stays within the screen boundaries". *)
Definition clamp (radius : Z) (nextPosition : Vector2 F) : Vector2 F :=
  let nextPosition :=
    if x nextPosition - of_int radius <? of_int 0
    then mkVector2 (of_int radius) (y nextPosition) else nextPosition in
  let nextPosition :=
    if x nextPosition + of_int radius >? of_int GetScreenWidth
    then mkVector2 (of_int (GetScreenWidth - radius)) (y nextPosition)
    else nextPosition in
  let nextPosition :=
    if y nextPosition - of_int radius <? of_int 0
    then mkVector2 (x nextPosition) (of_int radius) else nextPosition in
  let nextPosition :=
    if y nextPosition + of_int radius >? of_int GetScreenHeight
    then mkVector2 (x nextPosition) (of_int (GetScreenHeight - radius))
    else nextPosition in
  nextPosition.

Definition Cop_move (target : Character F) (walls : list (Wall F)) (c : Cop F)
  : Cop F :=
  let direction := Subtract (position target) (position c) in
  let direction := Normalize direction in
  let nextPosition := Add (position c) (Scale direction (speed c)) in
  let nextPosition := avoid c direction nextPosition walls in
  let nextPosition := clamp (radius c) nextPosition in
  mkCop (set_position nextPosition c)
        (atan2f (y direction) (x direction) * (dyadic 180 0 / PI)).

(** [SlowingZone::isInside] *)
Definition isInside (z : SlowingZone F) (position : Vector2 F) : bool :=
  CheckCollisionPointRec position (zone_rect z).
End Characters.

(** ** [rand()]

    A computation that calls [rand()] reads the values it returns from the
    front of a list; [None] means that the list ended before the computation
    did. *)

Definition Rand (A : Type) : Type := list Z -> option (A * list Z).

Definition ret {A : Type} (a : A) : Rand A := fun rs => Some (a, rs).

Definition bind {A B : Type} (m : Rand A) (k : A -> Rand B) : Rand B :=
  fun rs => match m rs with
            | Some (a, rs') => k a rs'
            | None => None
            end.

Definition rand : Rand Z :=
  fun rs => match rs with
            | r :: rs' => Some (r, rs')
            | [] => None
            end.

Notation "x <- m ;; k" := (bind m (fun x => k))
  (at level 61, m at next level, right associativity).

(** ** [class Game] *)

Section GameState.
Variable F : Type.

Record Game : Type := mkGame {
  robber : Robber F;
  cop : Cop F;
  cop2 : option (Cop F);
  door : option (Door F);
  coins : list (Coin F);
  walls : list (Wall F);
  slowingZone : option (SlowingZone F);
  score : Z;
  gameOver : bool;
  robberEscaped : bool;
  level : Z
}.

Definition set_robber (r : Robber F) (g : Game) : Game :=
  mkGame r (cop g) (cop2 g) (door g) (coins g) (walls g) (slowingZone g)
         (score g) (gameOver g) (robberEscaped g) (level g).
Definition set_cop (c : Cop F) (g : Game) : Game :=
  mkGame (robber g) c (cop2 g) (door g) (coins g) (walls g) (slowingZone g)
         (score g) (gameOver g) (robberEscaped g) (level g).
Definition set_cop2 (c : option (Cop F)) (g : Game) : Game :=
  mkGame (robber g) (cop g) c (door g) (coins g) (walls g) (slowingZone g)
         (score g) (gameOver g) (robberEscaped g) (level g).
Definition set_door (d : option (Door F)) (g : Game) : Game :=
  mkGame (robber g) (cop g) (cop2 g) d (coins g) (walls g) (slowingZone g)
         (score g) (gameOver g) (robberEscaped g) (level g).
Definition set_coins (cs : list (Coin F)) (g : Game) : Game :=
  mkGame (robber g) (cop g) (cop2 g) (door g) cs (walls g) (slowingZone g)
         (score g) (gameOver g) (robberEscaped g) (level g).
Definition set_walls (ws : list (Wall F)) (g : Game) : Game :=
  mkGame (robber g) (cop g) (cop2 g) (door g) (coins g) ws (slowingZone g)
         (score g) (gameOver g) (robberEscaped g) (level g).
Definition set_slowingZone (z : option (SlowingZone F)) (g : Game) : Game :=
  mkGame (robber g) (cop g) (cop2 g) (door g) (coins g) (walls g) z
         (score g) (gameOver g) (robberEscaped g) (level g).
Definition set_score (n : Z) (g : Game) : Game :=
  mkGame (robber g) (cop g) (cop2 g) (door g) (coins g) (walls g)
         (slowingZone g) n (gameOver g) (robberEscaped g) (level g).
Definition set_gameOver (b : bool) (g : Game) : Game :=
  mkGame (robber g) (cop g) (cop2 g) (door g) (coins g) (walls g)
         (slowingZone g) (score g) b (robberEscaped g) (level g).
Definition set_robberEscaped (b : bool) (g : Game) : Game :=
  mkGame (robber g) (cop g) (cop2 g) (door g) (coins g) (walls g)
         (slowingZone g) (score g) (gameOver g) b (level g).
Definition set_level (n : Z) (g : Game) : Game :=
  mkGame (robber g) (cop g) (cop2 g) (door g) (coins g) (walls g)
         (slowingZone g) (score g) (gameOver g) (robberEscaped g) n.
End GameState.

Definition screenWidth : Z := 800.
Definition screenHeight : Z := 600.
Definition playerRadius : Z := 20.
Definition copRadius : Z := 20.
Definition wallThickness : Z := 20.
Definition targetFPS : Z := 60.
Definition maxCoins : Z := 5.

Section GameLogic.
Context {F : Type} {SF : Scalar F} {RL : Raylib F}.
Local Open Scope float_scope.

(** *** [generateCoins] *)

(** The [do ... while (!validPosition)] loop for one coin: two calls of
    [rand()] per round, repeated until the point lies in no wall. *)
Fixpoint sampleCoin (walls : list (Wall F)) (rs : list Z)
  : option (Vector2 F * list Z) :=
  match rs with
  | r1 :: r2 :: rs' =>
      let coinPosition :=
        mkVector2 (of_int (Z.rem r1 (screenWidth - 2 * 10) + 10))
                  (of_int (Z.rem r2 (screenHeight - 2 * 10) + 10)) in
      if existsb (fun wall => CheckCollisionPointRec coinPosition (rect wall))
                 walls
      then sampleCoin walls rs'
      else Some (coinPosition, rs')
  | _ => None
  end.

(** The [for] loop, with [i] iterations left. *)
Fixpoint pushCoins (i : nat) (walls : list (Wall F)) (coins : list (Coin F))
  : Rand (list (Coin F)) :=
  match i with
  | O => ret coins
  | S i' =>
      coinPosition <- sampleCoin walls ;;
      pushCoins i' walls (coins ++ [mkCoin coinPosition false])
  end.

Definition generateCoins (g : Game F) : Rand (Game F) :=
  coins <- pushCoins (Z.to_nat maxCoins) (walls g) [] ;;
  ret (set_coins coins g).

(** *** [generateWalls] *)
Definition generateWalls (g : Game F) : Game F :=
  set_walls
    [ mkWall (mkRectangle (dyadic 150 0) (dyadic 150 0) (dyadic 200 0)
                          (of_int wallThickness));
      mkWall (mkRectangle (dyadic 450 0) (dyadic 300 0)
                          (of_int wallThickness) (dyadic 200 0));
      mkWall (mkRectangle (dyadic 250 0) (dyadic 450 0) (dyadic 300 0)
                          (of_int wallThickness)) ]
    g.

(** *** [generateSlowingZone] *)
Definition generateSlowingZone (g : Game F) : Rand (Game F) :=
  let zoneWidth := of_int screenWidth / dyadic 2 0 in
  let zoneHeight := of_int screenHeight / dyadic 2 0 in
  r1 <- rand ;;
  r2 <- rand ;;
  ret (set_slowingZone
         (Some (mkSlowingZone
                  (mkRectangle
                     (of_int (Z.rem r1 (screenWidth - to_int zoneWidth)))
                     (of_int (Z.rem r2 (screenHeight - to_int zoneHeight)))
                     zoneWidth zoneHeight)
                  (dyadic 3 (-2))))
         g).

(** *** [generateDoor] *)
Definition generateDoor (g : Game F) : Game F :=
  set_door
    (Some (mkDoor (mkRectangle (of_int screenWidth / dyadic 2 0 - of_int 40)
                               (of_int screenHeight - dyadic 80 0)
                               (dyadic 80 0) (dyadic 40 0))
                  true))
    g.

(** *** [advanceLevel] *)
Definition advanceLevel (g : Game F) : Rand (Game F) :=
  let g := set_level (level g + 1) g in
  let g := set_score 0 g in
  g <- generateCoins g ;;
  match level g with
  | 2 => generateSlowingZone g
  | 3 =>
      let g :=
        set_cop2
          (Some (mkCop (mkCharacter
                          (mkVector2 (of_int screenWidth - dyadic 100 0)
                                     (of_int screenHeight - dyadic 100 0))
                          copRadius PINK (dyadic 3 0))
                       (dyadic 0 0)))
          g in
      ret (generateDoor g)
  | _ => ret (set_gameOver true g)
  end.

(** *** [resetGame] *)
Definition resetGame (g : Game F) : Rand (Game F) :=
  let g := set_score 0 g in
  let g := set_level 1 g in
  let g := set_gameOver false g in
  let g := set_robberEscaped false g in
  let g := set_cop2 None g in
  let g := set_slowingZone None g in
  let g := set_door None g in
  let g :=
    set_cop (mkCop (mkCharacter (mkVector2 (dyadic 100 0) (dyadic 100 0))
                                copRadius RED (dyadic 3 0))
                   (dyadic 0 0))
            g in
  generateCoins g.

(** *** The constructor [Game()]

    [generateCoins] runs before [generateWalls], on the empty wall list. *)
Definition Game_new : Rand (Game F) :=
  let g :=
    mkGame
      (mkCharacter (mkVector2 (of_int screenWidth / dyadic 2 0)
                              (of_int screenHeight / dyadic 2 0))
                   playerRadius BLUE (dyadic 9 (-1)))
      (mkCop (mkCharacter (mkVector2 (dyadic 100 0) (dyadic 100 0))
                          copRadius RED (dyadic 3 0))
             (dyadic 0 0))
      None None [] [] None 0 false false 1 in
  g <- generateCoins g ;;
  ret (generateWalls g).

(** *** [update], statement by statement *)

(** Lines 243-251: the robber moves, and the move is undone when the new
    position overlaps a wall. *)
Definition moveRobber (input : Input) (g : Game F) : Game F :=
  let oldPosition := position (robber g) in
  let r := Robber_move input (robber g) in
  let r :=
    if existsb (fun wall => CheckCollisionCircleRec
                              (position r) (of_int (radius r)) (rect wall))
               (walls g)
    then set_position oldPosition r else r in
  set_robber r g.

(** Lines 253-257. *)
Definition adjustSpeed (g : Game F) : Game F :=
  match slowingZone g with
  | Some zone =>
      if isInside zone (position (robber g))
      then set_robber (set_speed (dyadic 27 (-3)) (robber g)) g
      else set_robber (set_speed (dyadic 9 (-1)) (robber g)) g
  | None => set_robber (set_speed (dyadic 9 (-1)) (robber g)) g
  end.

(** Lines 259-260. *)
Definition moveCops (g : Game F) : Game F :=
  let g := set_cop (Cop_move (robber g) (walls g) (cop g)) g in
  match cop2 g with
  | Some c2 => set_cop2 (Some (Cop_move (robber g) (walls g) c2)) g
  | None => g
  end.

(** Lines 262-265. *)
Definition catches (r : Robber F) (c : Cop F) : bool :=
  CheckCollisionCircles (position r) (of_int (radius r))
                        (position c) (of_int (radius c)).

Definition checkCaught (g : Game F) : Game F :=
  if catches (robber g) (cop g)
     || match cop2 g with
        | Some c2 => catches (robber g) c2
        | None => false
        end
  then set_gameOver true g else g.

(** Lines 267-272. *)
Definition picks (r : Robber F) (coin : Coin F) : bool :=
  negb (collected coin)
  && CheckCollisionCircles (position r) (of_int (radius r))
                           (coin_position coin) (of_int 10).

Fixpoint collect (r : Robber F) (coins : list (Coin F)) (score : Z)
  : list (Coin F) * Z :=
  match coins with
  | [] => ([], score)
  | coin :: coins' =>
      if picks r coin
      then let (cs, n) := collect r coins' (score + 1) in
           (set_collected true coin :: cs, n)
      else let (cs, n) := collect r coins' score in
           (coin :: cs, n)
  end.

Definition collectCoins (g : Game F) : Game F :=
  let (cs, n) := collect (robber g) (coins g) (score g) in
  set_score n (set_coins cs g).

(** Lines 274-276. *)
Definition checkQuota (g : Game F) : Rand (Game F) :=
  if score g >=? maxCoins then advanceLevel g else ret g.

(** Lines 278-280. *)
Definition checkDoor (g : Game F) : Game F :=
  match door g with
  | Some d =>
      if isOpen d
         && CheckCollisionCircleRec (position (robber g))
                                    (of_int (radius (robber g))) (door_rect d)
      then set_robberEscaped true g else g
  | None => g
  end.

(** The part of a frame before the quota test, which calls no [rand()]. *)
Definition play (input : Input) (g : Game F) : Game F :=
  collectCoins (checkCaught (moveCops (adjustSpeed (moveRobber input g)))).

Definition update (input : Input) (g : Game F) : Rand (Game F) :=
  if negb (gameOver g) && negb (robberEscaped g) then
    g <- checkQuota (play input g) ;;
    ret (checkDoor g)
  else
    if IsKeyPressed input KEY_R then resetGame g else ret g.

(** *** Sessions

    [run] is the loop of [Game::run] over the frames whose inputs are
    given; [draw] reads the state and changes nothing in it. *)
Fixpoint run (inputs : list Input) (g : Game F) : Rand (Game F) :=
  match inputs with
  | [] => ret g
  | input :: inputs' => g' <- update input g ;; run inputs' g'
  end.

Inductive reachable : Game F -> Prop :=
| reachable_new : forall rs g rs',
    Game_new rs = Some (g, rs') -> reachable g
| reachable_update : forall g input rs g' rs',
    reachable g -> update input g rs = Some (g', rs') -> reachable g'.

Definition terminal (g : Game F) : Prop :=
  gameOver g = true \/ robberEscaped g = true.

Definition playing (g : Game F) : Prop :=
  gameOver g = false /\ robberEscaped g = false.
End GameLogic.

(** ** A reference environment

    raylib and libm are not part of the repository.  Theorems about the game
    hold for every [Raylib]; concrete runs use the instance below. *)

Module Reference.
Section Collisions.
Context {F : Type} {SF : Scalar F}.
Local Open Scope float_scope.

(** The point of the interval from [lo] to [hi] closest to [a]. *)
Definition nearest (a lo hi : F) : F :=
  if a <? lo then lo else if a >? hi then hi else a.

(** Modelled from the spec: raylib's [CheckCollisionCircleRec], which section
    4.2 describes as "true iff the closest point on the rectangle to the
    circle's center is within [radius]"; distances are compared squared. *)
Definition circleOverlapsRect (center : Vector2 F) (radius : F)
  (rec : Rectangle F) : bool :=
  let dx := x center - nearest (x center) (rec_x rec) (rec_x rec + width rec) in
  let dy := y center - nearest (y center) (rec_y rec) (rec_y rec + height rec) in
  negb (dx * dx + dy * dy >? radius * radius).

(** Modelled from the spec: raylib's [CheckCollisionCircles], which section
    4.2 describes as "true iff distance between centers < r1 + r2";
    distances are compared squared. *)
Definition circleOverlapsCircle (c1 : Vector2 F) (r1 : F) (c2 : Vector2 F)
  (r2 : F) : bool :=
  let dx := x c2 - x c1 in
  let dy := y c2 - y c1 in
  dx * dx + dy * dy <? (r1 + r2) * (r1 + r2).

(** Modelled from the spec: raylib's [CheckCollisionPointRec], the test
    behind "inside the slowing zone's rectangle" of section 4.5; the
    rectangle contains its left and top edges. *)
Definition pointInRect (point : Vector2 F) (rec : Rectangle F) : bool :=
  negb (x point <? rec_x rec) && (x point <? rec_x rec + width rec)
  && negb (y point <? rec_y rec) && (y point <? rec_y rec + height rec).
End Collisions.

(** Modelled from the spec: [atan2f] of libm, of which only "facing angle
    0" for a target straight along the positive x axis (section 8) is
    stated: the arguments [(+-0, x)] with [x] positive give [+-0], as Annex F
    of the C standard fixes.  Elsewhere the result depends on libm's
    rounding and is left as NaN; it feeds [Cop::rotation] only, which
    nothing but [draw] reads. *)
Definition atan2f_axis (b a : Binary32.float) : Binary32.float :=
  match b, a with
  | S754_zero s, S754_finite false _ _ => S754_zero s
  | S754_zero s, S754_infinity false => S754_zero s
  | _, _ => S754_nan
  end.

#[global] Instance raylib : Raylib Binary32.float := {|
  CheckCollisionCircleRec := circleOverlapsRect;
  CheckCollisionCircles := circleOverlapsCircle;
  CheckCollisionPointRec := pointInRect;
  GetScreenWidth := screenWidth;
  GetScreenHeight := screenHeight;
  atan2f := atan2f_axis
|}.
End Reference.

(** ** Vocabulary of the statements *)

Section Vocabulary.
Context {F : Type} {SF : Scalar F} {RL : Raylib F}.
Local Open Scope float_scope.

(** The test of the inner loop of [generateCoins]. *)
Definition insideWall (walls : list (Wall F)) (p : Vector2 F) : bool :=
  existsb (fun wall => CheckCollisionPointRec p (rect wall)) walls.

(** The point sampled from two results of [rand()]. *)
Definition coinAt (r1 r2 : Z) : Vector2 F :=
  mkVector2 (of_int (Z.rem r1 (screenWidth - 2 * 10) + 10))
            (of_int (Z.rem r2 (screenHeight - 2 * 10) + 10)).

(** A coin as [generateCoins] makes it from the values [rs]. *)
Definition fresh (walls : list (Wall F)) (rs : list Z) (c : Coin F) : Prop :=
  collected c = false
  /\ insideWall walls (coin_position c) = false
  /\ exists r1 r2, In r1 rs /\ In r2 rs /\ coin_position c = coinAt r1 r2.

(** The number of rounds of sampling in [rs] that miss every wall. *)
Fixpoint supply (walls : list (Wall F)) (rs : list Z) : nat :=
  match rs with
  | r1 :: r2 :: rs' =>
      ((if insideWall walls (coinAt r1 r2) then 0 else 1) + supply walls rs')%nat
  | _ => 0%nat
  end.

(** None of the four tests of [clamp] fires. *)
Definition inBounds (radius : Z) (p : Vector2 F) : Prop :=
  (x p - of_int radius <? of_int 0) = false
  /\ (x p + of_int radius >? of_int GetScreenWidth) = false
  /\ (y p - of_int radius <? of_int 0) = false
  /\ (y p + of_int radius >? of_int GetScreenHeight) = false.

(** The coins that the loop of lines 267-272 collects. *)
Definition newlyCollected (r : Robber F) (coins : list (Coin F)) : Z :=
  Z.of_nat (length (filter (picks r) coins)).

(** The wall at which the loop of [Cop::move] stops. *)
Definition firstHit (c : Cop F) (candidate : Vector2 F)
  (walls : list (Wall F)) : option (Wall F) :=
  find (fun wall => CheckCollisionCircleRec candidate (of_int (radius c))
                                            (rect wall))
       walls.

Definition noReset (input : Input) : Prop := IsKeyPressed input KEY_R = false.

(** What holds of the session between two frames. *)
Definition invariant (g : Game F) : Prop :=
  1 <= level g <= 4
  /\ (4 <= level g -> gameOver g = true)
  /\ (2 <= level g -> slowingZone g <> None)
  /\ 0 <= score g < maxCoins.
End Vocabulary.

(** ** Concrete sessions

    The keyboard of one frame, frames of a session in the reference
    environment, and the states that serve as examples below. *)

Module Scenario.
Import Binary32 Reference.

Definition keys (w s a d r : bool) : Input :=
  mkInput (fun k => match k with
                    | KEY_W => w | KEY_S => s | KEY_A => a | KEY_D => d
                    | KEY_R => false
                    end)
          (fun k => match k with KEY_R => r | _ => false end).

Definition idle : Input := keys false false false false false.
Definition down : Input := keys false true false false false.
Definition left : Input := keys false false true false false.
Definition right : Input := keys false false false true false.
Definition down_left : Input := keys false true true false false.
Definition restart : Input := keys false false false false true.

Definition vec (a b : Z) : Vector2 float := mkVector2 (of_int a) (of_int b).

(** The robber steps down onto the five coins of level 1, walks left along
    y = 304.5 and down along x = 103 until the chaser has come round the first
    wall, leads it to the right along y = 538.5 and waits at (454, 538.5) for
    it to come within 46. *)
Definition chase : list Input :=
  [down] ++ repeat left 66 ++ repeat down 52 ++ repeat idle 22
         ++ repeat right 78 ++ repeat idle 32.

(** What [rand()] returns in that session: the coins of level 1 at
    (400, 300), those of level 2 at (450, 570), the slowing zone at (399, 0),
    the coins of level 3 at (15, 15), and the coins after a reset at
    (20, 20). *)
Definition rolls : list Z :=
  concat (repeat [390; 290] 5) ++ concat (repeat [440; 560] 5) ++ [399; 0]
  ++ concat (repeat [5; 5] 5) ++ concat (repeat [10; 10] 5).

(** Four coins of level 1 at (400, 300) and the fifth at (400, 332), just
    out of the robber's reach until it steps down. *)
Definition rolls_four : list Z :=
  concat (repeat [390; 290] 4) ++ [390; 322] ++ concat (repeat [5; 5] 6).

(** The coins of levels 1, 2 and 3 all at (400, 300), where the robber
    stands. *)
Definition rolls_quick : list Z :=
  concat (repeat [390; 290] 10) ++ [399; 0] ++ concat (repeat [390; 290] 5)
  ++ concat (repeat [5; 5] 5).

Definition session_on (rs : list Z) (inputs : list Input)
  : option (Game float * list Z) :=
  (g <- Game_new ;; run inputs g) rs.

Definition session : list Input -> option (Game float * list Z) :=
  session_on rolls.

(** A wall that covers the whole arena, and a small one. *)
Definition arena_wall : Wall float :=
  mkWall (mkRectangle (of_int 0) (of_int 0) (of_int 800) (of_int 600)).

Definition small_wall : Wall float :=
  mkWall (mkRectangle (of_int 90) (of_int 90) (of_int 20) (of_int 20)).

(** Chasers of the game's radius and speed: one in the corner of the arena,
    where the clamp applies, and one well inside it. *)
Definition corner_cop : Cop float :=
  mkCop (mkCharacter (vec 0 0) copRadius RED (dyadic 3 0)) (dyadic 0 0).

Definition walled_cop : Cop float :=
  mkCop (mkCharacter (vec 100 100) copRadius RED (dyadic 3 0)) (dyadic 0 0).

(** A chaser of speed 1 at the origin. *)
Definition unit_cop (radius : Z) : Cop float :=
  mkCop (mkCharacter (vec 0 0) radius RED (dyadic 1 0)) (dyadic 0 0).

(** A robber standing at [(a, b)]. *)
Definition target_at (a b : Z) : Character float :=
  mkCharacter (vec a b) playerRadius BLUE (dyadic 9 (-1)).
End Scenario.

(** ** Vocabulary of the further statements *)

Section Observations.
Context {F : Type} {SF : Scalar F} {RL : Raylib F}.
Local Open Scope float_scope.

(** The rounds of sampling that [rs] holds: its values two by two. *)
Fixpoint rounds (rs : list Z) : list (Z * Z) :=
  match rs with
  | r1 :: r2 :: rs' => (r1, r2) :: rounds rs'
  | _ => []
  end.

(** A round whose point lies in no wall ends the [do ... while] loop. *)
Definition accepted (walls : list (Wall F)) (p : Z * Z) : bool :=
  negb (insideWall walls (coinAt (fst p) (snd p))).

Definition coinOf (p : Z * Z) : Coin F := mkCoin (coinAt (fst p) (snd p)) false.

Definition collectedCount (coins : list (Coin F)) : Z :=
  Z.of_nat (length (filter (fun c => collected c) coins)).

(** The robber and the chasers as the test of lines 262-263 finds them. *)
Definition movedRobber (input : Input) (g : Game F) : Robber F :=
  robber (adjustSpeed (moveRobber input g)).

Definition movedCop (input : Input) (g : Game F) (c : Cop F) : Cop F :=
  Cop_move (movedRobber input g) (walls g) c.

Definition caught (input : Input) (g : Game F) : bool :=
  catches (movedRobber input g) (movedCop input g (cop g))
  || match cop2 g with
     | Some c2 => catches (movedRobber input g) (movedCop input g c2)
     | None => false
     end.

(** The rectangle that [generateDoor] gives the door, the second chaser that
    [advanceLevel] creates and the first chaser of [Game()] and [resetGame]. *)
Definition exitRect : Rectangle F :=
  mkRectangle (of_int screenWidth / dyadic 2 0 - of_int 40)
              (of_int screenHeight - dyadic 80 0)
              (dyadic 80 0) (dyadic 40 0).

Definition secondCop : Cop F :=
  mkCop (mkCharacter (mkVector2 (of_int screenWidth - dyadic 100 0)
                                (of_int screenHeight - dyadic 100 0))
                     copRadius PINK (dyadic 3 0))
        (dyadic 0 0).

Definition firstCop : Cop F :=
  mkCop (mkCharacter (mkVector2 (dyadic 100 0) (dyadic 100 0))
                     copRadius RED (dyadic 3 0))
        (dyadic 0 0).

(** The three walls of [generateWalls]. *)
Definition arenaWalls : list (Wall F) :=
  [ mkWall (mkRectangle (dyadic 150 0) (dyadic 150 0) (dyadic 200 0)
                        (of_int wallThickness));
    mkWall (mkRectangle (dyadic 450 0) (dyadic 300 0)
                        (of_int wallThickness) (dyadic 200 0));
    mkWall (mkRectangle (dyadic 250 0) (dyadic 450 0) (dyadic 300 0)
                        (of_int wallThickness)) ].

(** Which entities a session holds at which level. *)
Definition furnished (g : Game F) : Prop :=
  walls g = arenaWalls
  /\ (slowingZone g = None <-> level g = 1)
  /\ (cop2 g = None <-> level g <= 2)
  /\ (level g <= 2 -> door g = None)
  /\ (3 <= level g -> door g = Some (mkDoor exitRect true))
  /\ radius (robber g) = playerRadius
  /\ radius (cop g) = copRadius /\ speed (cop g) = dyadic 3 0
  /\ (forall c2, cop2 g = Some c2 ->
                 radius c2 = copRadius /\ speed c2 = dyadic 3 0)
  /\ (speed (robber g) = dyadic 9 (-1) \/ speed (robber g) = dyadic 27 (-3)).

(** The score counts the collected coins, of which there are five. *)
Definition tallied (g : Game F) : Prop :=
  length (coins g) = Z.to_nat maxCoins
  /\ score g = collectedCount (coins g).

(** One axis of [Robber::move]: the key toward 0, then the key toward
    [limit], each gated by its test on the coordinate as it then is. *)
Definition axisStep (toZero toLimit : bool) (limit radius : Z) (speed v : F)
  : F :=
  let v := if toZero && (v - of_int radius >? of_int 0) then v - speed else v in
  if toLimit && (v + of_int radius <? of_int limit) then v + speed else v.

(** One axis of [clamp]. *)
Definition axisClamp (limit radius : Z) (v : F) : F :=
  let v := if v - of_int radius <? of_int 0 then of_int radius else v in
  if v + of_int radius >? of_int limit then of_int (limit - radius) else v.

(** The tests of [clamp] pass at the two values that [clamp] assigns. *)
Definition clampSettles (limit radius : Z) : Prop :=
  (of_int radius - of_int radius <? of_int 0) = false
  /\ (of_int radius + of_int radius >? of_int limit) = false
  /\ (of_int (limit - radius) - of_int radius <? of_int 0) = false
  /\ (of_int (limit - radius) + of_int radius >? of_int limit) = false.
End Observations.

(** ** Eighths

    The robber starts at (400, 300) and moves by 4.5 or 3.375, so that its
    coordinates are whole numbers of eighths; in binary32 these steps are
    exact, which the functions below check value by value. *)

Module Eighths.
Import Binary32.

Definition eighths (k : Z) : float := dyadic k (-3).

(** Equality of representations. *)
Definition same (a b : float) : bool :=
  match a, b with
  | S754_zero s, S754_zero t => Bool.eqb s t
  | S754_infinity s, S754_infinity t => Bool.eqb s t
  | S754_nan, S754_nan => true
  | S754_finite s m e, S754_finite t n f =>
      Bool.eqb s t && Pos.eqb m n && Z.eqb e f
  | _, _ => false
  end.

(** The coordinates from which a step of the robber is checked: from 15.625
    to [limit - 15.625]. *)
Definition inBand (limit k : Z) : bool :=
  (125 <=? k) && (k <=? 8 * limit - 125).

(** A step from [k] eighths, at either speed and with any keys held, ends at
    a whole number of eighths in the band. *)
Definition stepStays (limit k : Z) : bool :=
  forallb
    (fun speed =>
       forallb
         (fun keys =>
            let v := axisStep (fst keys) (snd keys) limit playerRadius speed
                              (eighths k) in
            let k' := to_int (v * dyadic 8 0)%flt in
            same v (eighths k') && inBand limit k')
         [(false, false); (false, true); (true, false); (true, true)])
    [dyadic 9 (-1); dyadic 27 (-3)].

Definition upTo (lo : Z) (n : nat) : list Z :=
  map (fun i => lo + Z.of_nat i) (seq 0 n).

(** The keys of one frame, and sessions of the reference environment. *)
Definition up : Input := mkInput (fun k => match k with KEY_W => true | _ => false end)
                                 (fun _ => false).

(** [rand()] placing the first coin of the constructor at (250, 160), in
    the middle of the first wall, and the others at (15, 15). *)
Definition rolls_walled : list Z := [240; 150] ++ concat (repeat [5; 5] 4).
End Eighths.

(** ** Finite numbers of binary32 *)

(** A binary32 number that is neither an infinity nor NaN, and one that is
    moreover not a zero. *)
Definition finite (v : Binary32.float) : bool :=
  match v with
  | S754_zero _ | S754_finite _ _ _ => true
  | _ => false
  end.

Definition nonzero (v : Binary32.float) : bool :=
  match v with
  | S754_finite _ _ _ => true
  | _ => false
  end.

(** The real number that a finite binary32 number stands for: [bpow e] is
    [2^e], [val m e] is [m * 2^e], and [eps] is [2^-23], one unit in the last
    place of a number between 1 and 2. *)
Definition bpow (e : Z) : R := powerRZ 2 e.

Definition val (m : positive) (e : Z) : R := (IZR (Z.pos m) * bpow e)%R.

Definition toR (f : Binary32.float) : R :=
  match f with
  | S754_finite s m e => if s then (- val m e)%R else val m e
  | _ => 0%R
  end.

Definition eps : R := (/ 8388608)%R.

(** A mantissa of 24 bits, and a number that is zero or normal with a
    magnitude from 2^-60 up to 2^61. *)
Definition full (m : positive) : Prop := 2 ^ 23 <= Z.pos m < 2 ^ 24.

Definition moderate (v : Binary32.float) : Prop :=
  match v with
  | S754_zero _ => True
  | S754_finite _ m e => full m /\ -83 <= e <= 37
  | _ => False
  end.

(** ** Drawing

    [Game::draw] and the [draw] of each entity write no member of the game;
    what they do is call raylib.  The calls of one frame, in the order in
    which they are made, are the picture of that frame. *)

From Stdlib Require String Ascii DecimalString.
Import String.StringSyntax.
Delimit Scope string_scope with string.

(** The colour arguments of the calls: the colour of an entity, one of the
    constants that only [draw] names, or [Fade] of a colour. *)
Inductive Tint (F : Type) : Type :=
| Plain (c : Color)
| RAYWHITE
| BLACK
| DARKGRAY
| Fade (c : Color) (alpha : F).

Arguments Plain {F} _.
Arguments RAYWHITE {F}.
Arguments BLACK {F}.
Arguments DARKGRAY {F}.
Arguments Fade {F} _ _.

Inductive Call (F : Type) : Type :=
| BeginDrawing
| EndDrawing
| ClearBackground (c : Tint F)
| DrawRectangleRec (rec : Rectangle F) (c : Tint F)
| DrawCircleV (center : Vector2 F) (radius : F) (c : Tint F)
| DrawLineEx (startPos endPos : Vector2 F) (thick : F) (c : Tint F)
| DrawText (text : String.string) (posX posY fontSize : Z) (c : Tint F).

Arguments BeginDrawing {F}.
Arguments EndDrawing {F}.
Arguments ClearBackground {F} _.
Arguments DrawRectangleRec {F} _ _.
Arguments DrawCircleV {F} _ _ _.
Arguments DrawLineEx {F} _ _ _ _.
Arguments DrawText {F} _ _ _ _ _.

(** What [draw] asks of libm and of raylib's font. *)
Class Canvas (F : Type) : Type := {
  cosf : F -> F;
  sinf : F -> F;
  MeasureText : String.string -> Z -> Z
}.

(** [TextFormat] at a format that ends in its one [%d]. *)
Definition TextFormat (text : String.string) (n : Z) : String.string :=
  String.append text (DecimalString.NilZero.string_of_int (Z.to_int n)).

(** The text of line 323; its last nine bytes, four characters, are outside
    ASCII. *)
Definition escapeText : String.string :=
  String.append
    "We have successfully robbed our neighbour! "%string
    (String.string_of_list_ascii
       (map Ascii.ascii_of_nat
            [239; 163; 191; 195; 188; 195; 178; 195; 168]%nat)).

Section Drawing.
Context {F : Type} {SF : Scalar F} {CV : Canvas F}.
Local Open Scope float_scope.

Definition Wall_draw (wall : Wall F) : list (Call F) :=
  [DrawRectangleRec (rect wall) (Plain GRAY)].

Definition Door_draw (door : Door F) : list (Call F) :=
  if isOpen door then [DrawRectangleRec (door_rect door) (Plain BROWN)] else [].

Definition Character_draw (c : Character F) : list (Call F) :=
  [DrawCircleV (position c) (of_int (radius c)) (Plain (color c))].

Definition Cop_draw (c : Cop F) : list (Call F) :=
  [ DrawCircleV (position c) (of_int (radius c)) (Plain (color c));
    DrawLineEx (position c)
               (Add (position c)
                    (Scale (mkVector2
                              (cosf (rotation c * (PI / dyadic 180 0)))
                              (sinf (rotation c * (PI / dyadic 180 0))))
                           (of_int (radius c))))
               (dyadic 2 0) BLACK ].

Definition Coin_draw (coin : Coin F) : list (Call F) :=
  if collected coin then []
  else [DrawCircleV (coin_position coin) (of_int 10) (Plain GOLD)].

Definition SlowingZone_draw (zone : SlowingZone F) : list (Call F) :=
  [DrawRectangleRec (zone_rect zone) (Fade GREEN (dyadic 1 (-1)))].

(** A line of text of size [fontSize], centred across the window. *)
Definition centred (text : String.string) (posY fontSize : Z) (c : Tint F)
  : Call F :=
  DrawText text
           (Z.quot screenWidth 2 - Z.quot (MeasureText text fontSize) 2)
           posY fontSize c.

Definition draw (g : Game F) : list (Call F) :=
  [BeginDrawing; ClearBackground RAYWHITE]
  ++ flat_map Wall_draw (walls g)
  ++ match slowingZone g with
     | Some zone => SlowingZone_draw zone
     | None => []
     end
  ++ flat_map Coin_draw (coins g)
  ++ match door g with
     | Some door => Door_draw door
     | None => []
     end
  ++ Character_draw (robber g)
  ++ Cop_draw (cop g)
  ++ match cop2 g with
     | Some c2 => Cop_draw c2
     | None => []
     end
  ++ [ DrawText (TextFormat "Score: "%string (score g)) 10 10 20 BLACK;
       DrawText (TextFormat "Level: "%string (level g)) 10 40 20 BLACK ]
  ++ (if gameOver g
      then [ centred "Game Over!"%string (Z.quot screenHeight 2 - 20) 40 (Plain RED);
             centred "Press 'R' to restart"%string (Z.quot screenHeight 2 + 30) 20
                     DARKGRAY ]
      else [])
  ++ (if robberEscaped g
      then [ClearBackground BLACK]
           ++ Character_draw (robber g)
           ++ [centred escapeText (Z.quot screenHeight 2) 20 (Plain GREEN)]
      else [])
  ++ [EndDrawing].




(** The calls that paint in gold, the colour of the coins. *)
Definition gold (call : Call F) : bool :=
  match call with
  | DrawRectangleRec _ (Plain GOLD) | DrawCircleV _ _ (Plain GOLD)
  | DrawLineEx _ _ _ (Plain GOLD) | DrawText _ _ _ _ (Plain GOLD) => true
  | _ => false
  end.

(** The colours that the constructors give the robber and the chasers. *)
Definition liveried (g : Game F) : Prop :=
  color (robber g) = BLUE /\ color (cop g) = RED
  /\ forall c2, cop2 g = Some c2 -> color c2 = PINK.
End Drawing.

(** A canvas for the examples.  No statement below depends on what [cosf],
    [sinf] and [MeasureText] return: here the angle 0 has its cosine and
    sine, every other angle is left as NaN, and a text is as wide as half its
    font size for each of its bytes. *)
Module Sketch.
Import Binary32.

Definition cosf_axis (a : float) : float :=
  match a with
  | S754_zero _ => dyadic 1 0
  | _ => S754_nan
  end.

Definition sinf_axis (a : float) : float :=
  match a with
  | S754_zero s => S754_zero s
  | _ => S754_nan
  end.

#[global] Instance canvas : Canvas float := {|
  cosf := cosf_axis;
  sinf := sinf_axis;
  MeasureText text fontSize :=
    Z.of_nat (String.length text) * Z.quot fontSize 2
|}.
End Sketch.

(** ** Facts about the embedding *)

Unset Implicit Arguments.

Ltac break_match :=
  match goal with
  | |- context [match ?e with _ => _ end] => destruct e eqn:?
  end.

(** Projections of a record built by the setters, nothing else unfolded. *)
Ltac project :=
  cbn [robber cop cop2 door coins walls slowingZone score gameOver
       robberEscaped level set_robber set_cop set_cop2 set_door set_coins
       set_walls set_slowingZone set_score set_gameOver set_robberEscaped
       set_level position radius color speed set_position set_speed fst snd].

Ltac fields := intros; repeat (project; try break_match); try reflexivity.

Section Facts.
Context {F : Type} {SF : Scalar F} {RL : Raylib F}.

Lemma bind_Some : forall (A B : Type) (m : Rand A) (k : A -> Rand B) rs b rs',
  (a <- m ;; k a) rs = Some (b, rs') ->
  exists a rs1, m rs = Some (a, rs1) /\ k a rs1 = Some (b, rs').
Proof.
  unfold bind; intros A B m k rs b rs' E.
  destruct (m rs) as [[a rs1]|]; [eauto | discriminate].
Qed.

Lemma ret_Some : forall (A : Type) (a b : A) rs rs',
  ret a rs = Some (b, rs') -> b = a /\ rs' = rs.
Proof. unfold ret; intros A a b rs rs' E; inversion E; auto. Qed.

(** Induction on a list two elements at a time, as [sampleCoin] reads it. *)
Lemma pairs_ind : forall (P : list Z -> Prop),
  P [] -> (forall r, P [r]) ->
  (forall r1 r2 rs, P rs -> P (r1 :: r2 :: rs)) ->
  forall rs, P rs.
Proof.
  intros P H0 H1 H2.
  assert (forall rs, P rs /\ forall r, P (r :: rs)) as A.
  { induction rs as [|r rs [IH1 IH2]]; split; auto. }
  intro rs; apply A.
Qed.

(** *** [generateCoins] *)

Lemma sampleCoin_Some : forall walls rs p rs',
  sampleCoin walls rs = Some (p, rs') ->
  insideWall walls p = false
  /\ (exists r1 r2, In r1 rs /\ In r2 rs /\ p = coinAt r1 r2)
  /\ (forall r, In r rs' -> In r rs)
  /\ supply walls rs = S (supply walls rs').
Proof.
  intros walls rs; induction rs as [| r | r1 r2 rs IH] using pairs_ind;
    intros p rs' E; try discriminate.
  cbn [sampleCoin] in E. cbn [supply].
  change (mkVector2 _ _) with (coinAt r1 r2) in E.
  change (existsb _ walls) with (insideWall walls (coinAt r1 r2)) in E.
  destruct (insideWall walls (coinAt r1 r2)) eqn:W.
  - destruct (IH _ _ E) as (A & (a & b & Ia & Ib & Ep) & S1 & S2).
    repeat split; auto.
    + exists a, b; simpl; auto.
    + intros r Ir; simpl; auto.
  - inversion E; subst; repeat split; auto.
    + exists r1, r2; simpl; auto.
    + intros r Ir; simpl; auto.
Qed.

Lemma sampleCoin_total : forall walls rs,
  (1 <= supply walls rs)%nat -> exists p rs', sampleCoin walls rs = Some (p, rs').
Proof.
  intros walls rs; induction rs as [| r | r1 r2 rs IH] using pairs_ind;
    cbn [supply]; intros L; try lia.
  cbn [sampleCoin].
  change (mkVector2 _ _) with (coinAt r1 r2).
  change (existsb _ walls) with (insideWall walls (coinAt r1 r2)).
  destruct (insideWall walls (coinAt r1 r2)); eauto.
Qed.

Lemma pushCoins_Some : forall i walls acc rs cs rs',
  pushCoins i walls acc rs = Some (cs, rs') ->
  (exists new, cs = acc ++ new /\ length new = i /\ Forall (fresh walls rs) new)
  /\ (forall r, In r rs' -> In r rs)
  /\ supply walls rs = (i + supply walls rs')%nat.
Proof.
  induction i as [|i IH]; intros walls acc rs cs rs' E.
  - apply ret_Some in E as [-> ->]. split; [|split]; auto.
    exists []; rewrite app_nil_r; auto.
  - cbn [pushCoins] in E. apply bind_Some in E as (p & rs1 & E1 & E2).
    apply sampleCoin_Some in E1 as (W & (r1 & r2 & I1 & I2 & Ep) & S1 & S2).
    apply IH in E2 as ((new & -> & L & Fr) & S3 & S4).
    split; [|split].
    + exists (mkCoin p false :: new). rewrite <- app_assoc. split; [reflexivity|].
      split; [simpl; lia|]. constructor.
      * unfold fresh; simpl; eauto 8.
      * eapply Forall_impl; [|exact Fr].
        intros c (A & B & a & b & Ia & Ib & Ec); unfold fresh; eauto 10.
    + auto.
    + lia.
Qed.

Lemma pushCoins_total : forall i walls acc rs,
  (i <= supply walls rs)%nat ->
  exists cs rs', pushCoins i walls acc rs = Some (cs, rs').
Proof.
  induction i as [|i IH]; intros walls acc rs L.
  - unfold pushCoins, ret; eauto.
  - destruct (sampleCoin_total walls rs) as (p & rs1 & E); [lia|].
    cbn [pushCoins]; unfold bind; rewrite E.
    apply IH. apply sampleCoin_Some in E as (_ & _ & _ & S2). lia.
Qed.

Lemma generateCoins_Some : forall g rs g' rs',
  generateCoins g rs = Some (g', rs') ->
  g' = set_coins (coins g') g
  /\ length (coins g') = Z.to_nat maxCoins
  /\ Forall (fresh (walls g) rs) (coins g')
  /\ (forall r, In r rs' -> In r rs)
  /\ supply (walls g) rs = (Z.to_nat maxCoins + supply (walls g) rs')%nat.
Proof.
  unfold generateCoins; intros g rs g' rs' E.
  apply bind_Some in E as (cs & rs1 & E1 & E2).
  apply ret_Some in E2 as [-> ->].
  apply pushCoins_Some in E1 as ((new & -> & L & Fr) & S1 & S2).
  simpl; auto.
Qed.

Lemma generateCoins_total : forall g rs,
  (Z.to_nat maxCoins <= supply (walls g) rs)%nat ->
  exists g' rs', generateCoins g rs = Some (g', rs').
Proof.
  intros g rs L. unfold generateCoins, bind.
  destruct (pushCoins_total (Z.to_nat maxCoins) (walls g) [] rs L)
    as (cs & rs1 & ->).
  unfold ret; eauto.
Qed.

(** *** The statements of [update] *)

Lemma collect_spec : forall (r : Robber F) cs n,
  collect r cs n
  = (map (fun c => if picks r c then set_collected true c else c) cs,
     n + newlyCollected r cs).
Proof.
  unfold newlyCollected; induction cs as [|c cs IH]; intro n; simpl.
  - f_equal; lia.
  - destruct (picks r c); rewrite IH; simpl; f_equal; lia.
Qed.

Lemma newlyCollected_nonneg : forall (r : Robber F) cs, 0 <= newlyCollected r cs.
Proof. unfold newlyCollected; intros; lia. Qed.

Lemma picks_position : forall (r r' : Robber F) c,
  position r' = position r -> radius r' = radius r -> picks r' c = picks r c.
Proof. unfold picks; intros r r' c -> ->; reflexivity. Qed.

(** Each statement writes the members it names and no other. *)
Lemma moveRobber_writes : forall input g,
  moveRobber input g = set_robber (robber (moveRobber input g)) g.
Proof. reflexivity. Qed.

Lemma adjustSpeed_writes : forall g,
  adjustSpeed g = set_robber (robber (adjustSpeed g)) g.
Proof. intro g; unfold adjustSpeed; fields. Qed.

Lemma moveCops_writes : forall g,
  moveCops g = set_cop2 (cop2 (moveCops g)) (set_cop (cop (moveCops g)) g).
Proof. intro g; unfold moveCops; project; destruct (cop2 g); reflexivity. Qed.

Lemma checkCaught_writes : forall g,
  checkCaught g = set_gameOver (gameOver (checkCaught g)) g.
Proof. intros [? ? ? ? ? ? ? ? ? ? ?]; unfold checkCaught; fields. Qed.

Lemma collectCoins_writes : forall g,
  collectCoins g
  = set_score (score g + newlyCollected (robber g) (coins g))
      (set_coins (map (fun c => if picks (robber g) c
                                then set_collected true c else c)
                      (coins g))
                 g).
Proof. intro g; unfold collectCoins; rewrite collect_spec; reflexivity. Qed.

Lemma checkDoor_writes : forall g,
  checkDoor g = set_robberEscaped (robberEscaped (checkDoor g)) g.
Proof. intros [? ? ? ? ? ? ? ? ? ? ?]; unfold checkDoor; fields. Qed.

Lemma play_writes : forall input g,
  exists r c c2 over cs,
    play input g
    = set_score (score g + newlyCollected r (coins g))
        (set_coins cs
           (set_gameOver over (set_cop2 c2 (set_cop c (set_robber r g)))))
    /\ r = robber (adjustSpeed (moveRobber input g)).
Proof.
  intros input g; unfold play.
  rewrite collectCoins_writes, checkCaught_writes, moveCops_writes.
  rewrite adjustSpeed_writes. project.
  do 5 eexists; split; [|reflexivity].
  destruct g; reflexivity.
Qed.

Lemma play_robber : forall input g,
  robber (play input g) = robber (adjustSpeed (moveRobber input g)).
Proof.
  intros input g.
  destruct (play_writes input g) as (r & c & c2 & over & cs & -> & ->).
  reflexivity.
Qed.

Lemma adjustSpeed_position : forall g,
  position (robber (adjustSpeed g)) = position (robber g)
  /\ radius (robber (adjustSpeed g)) = radius (robber g).
Proof. intros; unfold adjustSpeed; split; fields. Qed.

Lemma play_position : forall input g,
  position (robber (play input g)) = position (robber (moveRobber input g)).
Proof. intros; rewrite play_robber; apply adjustSpeed_position. Qed.

Lemma newlyCollected_position : forall (r r' : Robber F) cs,
  position r' = position r -> radius r' = radius r ->
  newlyCollected r' cs = newlyCollected r cs.
Proof.
  intros r r' cs Ep Er; unfold newlyCollected; do 2 f_equal.
  apply filter_ext; intro c; apply picks_position; auto.
Qed.

Lemma play_score : forall input g,
  score (play input g)
  = score g + newlyCollected (robber (moveRobber input g)) (coins g).
Proof.
  intros input g.
  destruct (play_writes input g) as (r & c & c2 & over & cs & -> & ->).
  project. f_equal. apply newlyCollected_position; apply adjustSpeed_position.
Qed.

Lemma play_static : forall input g,
  level (play input g) = level g
  /\ slowingZone (play input g) = slowingZone g
  /\ walls (play input g) = walls g
  /\ door (play input g) = door g
  /\ robberEscaped (play input g) = robberEscaped g.
Proof.
  intros input g.
  destruct (play_writes input g) as (r & c & c2 & over & cs & -> & ->).
  repeat split.
Qed.

Lemma switch_default : forall (A : Type) (z : Z) (a b c : A),
  z <> 2 -> z <> 3 ->
  match z with 2 => a | 3 => b | _ => c end = c.
Proof.
  intros A z a b c N2 N3.
  destruct z as [|p|p]; try reflexivity.
  destruct p as [[q|q|]|[q|q|]|]; try reflexivity; congruence.
Qed.

(** *** [advanceLevel] and [resetGame] *)

Lemma advanceLevel_Some : forall g rs g' rs',
  advanceLevel g rs = Some (g', rs') ->
  level g' = level g + 1 /\ score g' = 0
  /\ robber g' = robber g /\ cop g' = cop g /\ walls g' = walls g
  /\ robberEscaped g' = robberEscaped g
  /\ length (coins g') = Z.to_nat maxCoins
  /\ Forall (fresh (walls g) rs) (coins g')
  /\ (level g + 1 = 2 ->
      gameOver g' = gameOver g /\ door g' = door g /\ cop2 g' = cop2 g
      /\ exists zone, slowingZone g' = Some zone
                      /\ slowEffect zone = dyadic 3 (-2)
                      /\ width (zone_rect zone)
                         = (of_int screenWidth / dyadic 2 0)%flt
                      /\ height (zone_rect zone)
                         = (of_int screenHeight / dyadic 2 0)%flt)
  /\ (level g + 1 = 3 ->
      gameOver g' = gameOver g /\ slowingZone g' = slowingZone g
      /\ (exists c2, cop2 g' = Some c2)
      /\ exists d, door g' = Some d /\ isOpen d = true)
  /\ (level g + 1 <> 2 -> level g + 1 <> 3 ->
      gameOver g' = true /\ slowingZone g' = slowingZone g
      /\ door g' = door g /\ cop2 g' = cop2 g).
Proof.
  unfold advanceLevel; intros g rs g' rs' E.
  apply bind_Some in E as (g1 & rs1 & E1 & E2).
  apply generateCoins_Some in E1 as (Eg & L & Fr & _ & _).
  simpl in Eg, Fr. rewrite Eg in E2. cbn [level set_coins set_score set_level] in E2.
  destruct (Z.eq_dec (level g + 1) 2) as [e2|n2];
    [|destruct (Z.eq_dec (level g + 1) 3) as [e3|n3]].
  - rewrite e2 in E2. unfold generateSlowingZone in E2.
    apply bind_Some in E2 as (r1 & rs2 & _ & E2).
    apply bind_Some in E2 as (r2 & rs3 & _ & E2).
    apply ret_Some in E2 as [-> _]. simpl.
    repeat split; auto; try lia. eexists; repeat split.
  - rewrite e3 in E2. apply ret_Some in E2 as [-> _]. simpl.
    repeat split; eauto; try lia.
  - rewrite switch_default in E2 by assumption.
    apply ret_Some in E2 as [-> _]. simpl.
    repeat split; auto; try lia.
Qed.

Lemma advanceLevel_total : forall g rs,
  (Z.to_nat maxCoins + 1 <= supply (walls g) rs)%nat ->
  exists g' rs', advanceLevel g rs = Some (g', rs').
Proof.
  intros g rs L. unfold advanceLevel.
  destruct (generateCoins_total (set_score 0 (set_level (level g + 1) g)) rs)
    as (g1 & rs1 & E); [project; lia|].
  unfold bind at 1; rewrite E.
  apply generateCoins_Some in E as (_ & _ & _ & _ & S1).
  cbn [walls set_score set_level] in S1.
  assert (exists r1 r2 rs2, rs1 = r1 :: r2 :: rs2) as (r1 & r2 & rs2 & ->).
  { destruct rs1 as [|r1 [|r2 rs2]]; cbn [supply] in S1; try lia; eauto. }
  unfold generateSlowingZone, bind, rand, ret.
  repeat break_match; eauto.
Qed.

Lemma resetGame_Some : forall g rs g' rs',
  resetGame g rs = Some (g', rs') ->
  score g' = 0 /\ level g' = 1
  /\ gameOver g' = false /\ robberEscaped g' = false
  /\ cop2 g' = None /\ slowingZone g' = None /\ door g' = None
  /\ cop g' = mkCop (mkCharacter (mkVector2 (dyadic 100 0) (dyadic 100 0))
                                 copRadius RED (dyadic 3 0))
                    (dyadic 0 0)
  /\ length (coins g') = Z.to_nat maxCoins
  /\ Forall (fresh (walls g) rs) (coins g')
  /\ walls g' = walls g
  /\ robber g' = robber g.
Proof.
  unfold resetGame; intros g rs g' rs' E.
  apply generateCoins_Some in E as (Eg & L & Fr & _ & _).
  simpl in Eg, Fr. rewrite Eg. simpl. repeat split; auto.
Qed.

Lemma resetGame_total : forall g rs,
  (Z.to_nat maxCoins <= supply (walls g) rs)%nat ->
  exists g' rs', resetGame g rs = Some (g', rs').
Proof.
  intros g rs L; unfold resetGame; apply generateCoins_total; project; lia.
Qed.
End Facts.

(** ** One frame *)

Section Frames.
Context {F : Type} {SF : Scalar F} {RL : Raylib F}.

Lemma update_playing : forall input (g : Game F) rs,
  playing g ->
  update input g rs = (g1 <- checkQuota (play input g) ;; ret (checkDoor g1)) rs.
Proof. intros input g rs [Eo Ee]; unfold update; rewrite Eo, Ee; reflexivity. Qed.

Lemma update_terminal : forall input (g : Game F) rs,
  terminal g ->
  update input g rs
  = if IsKeyPressed input KEY_R then resetGame g rs else Some (g, rs).
Proof.
  intros input g rs T; unfold update.
  replace (negb (gameOver g) && negb (robberEscaped g)) with false;
    [destruct (IsKeyPressed input KEY_R); reflexivity|].
  destruct T as [-> | ->]; [reflexivity | apply eq_sym, andb_false_r].
Qed.

Lemma playing_or_terminal : forall g : Game F, playing g \/ terminal g.
Proof.
  intro g; unfold playing, terminal.
  destruct (gameOver g), (robberEscaped g); auto.
Qed.

(** A frame of play either keeps the level or advances it once. *)
Lemma update_playing_Some : forall input (g : Game F) rs g' rs',
  playing g -> update input g rs = Some (g', rs') ->
  (score (play input g) < maxCoins /\ g' = checkDoor (play input g) /\ rs' = rs)
  \/ (maxCoins <= score (play input g)
      /\ exists g1, advanceLevel (play input g) rs = Some (g1, rs')
                    /\ g' = checkDoor g1).
Proof.
  intros input g rs g' rs' P E. rewrite update_playing in E by assumption.
  apply bind_Some in E as (g1 & rs1 & E1 & E2).
  apply ret_Some in E2 as [-> ->]. unfold checkQuota in E1.
  destruct (Z.geb_spec (score (play input g)) maxCoins) as [G|L].
  - right; eauto.
  - left. apply ret_Some in E1 as [-> ->]. auto.
Qed.

Lemma update_total : forall input (g : Game F) rs,
  (Z.to_nat maxCoins + 1 <= supply (walls g) rs)%nat ->
  exists g' rs', update input g rs = Some (g', rs').
Proof.
  intros input g rs L.
  destruct (playing_or_terminal g) as [P|T].
  - rewrite update_playing by assumption. unfold bind, checkQuota.
    destruct (score (play input g) >=? maxCoins).
    + destruct (advanceLevel_total (play input g) rs) as (g1 & rs1 & ->).
      * destruct (play_static input g) as (_ & _ & -> & _). exact L.
      * unfold ret; eauto.
    + unfold ret; eauto.
  - rewrite update_terminal by assumption.
    destruct (IsKeyPressed input KEY_R); [|eauto].
    apply resetGame_total; lia.
Qed.

Lemma checkDoor_static : forall g : Game F,
  level (checkDoor g) = level g /\ score (checkDoor g) = score g
  /\ gameOver (checkDoor g) = gameOver g
  /\ slowingZone (checkDoor g) = slowingZone g
  /\ robber (checkDoor g) = robber g /\ coins (checkDoor g) = coins g
  /\ walls (checkDoor g) = walls g.
Proof. intro g; rewrite checkDoor_writes; repeat split. Qed.

(** *** The invariant of the session *)

Lemma Game_new_invariant : forall rs (g : Game F) rs',
  Game_new rs = Some (g, rs') -> invariant g.
Proof.
  unfold Game_new; intros rs g rs' E.
  apply bind_Some in E as (g1 & rs1 & E1 & E2).
  apply ret_Some in E2 as [-> _].
  apply generateCoins_Some in E1 as (-> & _).
  unfold invariant, generateWalls, maxCoins; project.
  repeat split; intros; try lia.
Qed.

Lemma update_invariant : forall input (g : Game F) rs g' rs',
  invariant g -> update input g rs = Some (g', rs') -> invariant g'.
Proof.
  intros input g rs g' rs' (Lv & Over & Zone & Sc) E.
  destruct (playing_or_terminal g) as [P|T].
  - assert (level g <= 3) as L3.
    { destruct (Z_le_gt_dec 4 (level g)) as [L4|]; [|lia].
      destruct P as [P _]; rewrite Over in P by assumption; discriminate. }
    destruct (play_static input g) as (El & Ez & _).
    pose proof (play_score input g) as Es.
    pose proof (newlyCollected_nonneg (robber (moveRobber input g)) (coins g)).
    destruct (update_playing_Some _ _ _ _ _ P E)
      as [(Lt & -> & _) | (Ge & g1 & A & ->)];
      destruct (checkDoor_static (play input g)) as (Dl & Ds & Do & Dz & _).
    + unfold invariant. rewrite Dl, Ds, Do, Dz, El, Ez.
      repeat split; auto; try lia; intros; lia.
    + clear Dl Ds Do Dz.
      destruct (checkDoor_static g1) as (Dl & Ds & Do & Dz & _).
      apply advanceLevel_Some in A
        as (Al & As & _ & _ & _ & _ & _ & _ & A2 & A3 & A4).
      unfold invariant. rewrite Dl, Ds, Do, Dz, Al, As, El.
      rewrite El in A2, A3, A4. rewrite Ez in A3, A4.
      unfold maxCoins. repeat split; try lia.
      * intro L4; apply A4; lia.
      * intros _.
        destruct (Z.eq_dec (level g + 1) 2) as [e2|n2];
          [|destruct (Z.eq_dec (level g + 1) 3) as [e3|n3]].
        -- destruct (A2 e2) as (_ & _ & _ & zone & -> & _); discriminate.
        -- destruct (A3 e3) as (_ & -> & _); apply Zone; lia.
        -- destruct (A4 n2 n3) as (_ & -> & _); apply Zone; lia.
  - rewrite update_terminal in E by assumption.
    destruct (IsKeyPressed input KEY_R).
    + apply resetGame_Some in E
        as (Es & El & _ & _ & _ & _ & _ & _ & _ & _ & _ & _).
      unfold invariant, maxCoins. rewrite Es, El.
      repeat split; intros; lia.
    + inversion E; subst. repeat split; auto; lia.
Qed.

Lemma reachable_invariant : forall g : Game F, reachable g -> invariant g.
Proof.
  induction 1 as [rs g rs' E | g input rs g' rs' R IH E].
  - eapply Game_new_invariant; eassumption.
  - eapply update_invariant; eassumption.
Qed.

Lemma run_reachable : forall inputs (g : Game F) rs g' rs',
  reachable g -> run inputs g rs = Some (g', rs') -> reachable g'.
Proof.
  induction inputs as [|input inputs IH]; intros g rs g' rs' R E.
  - apply ret_Some in E as [-> _]; assumption.
  - cbn [run] in E. apply bind_Some in E as (g1 & rs1 & E1 & E2).
    eapply IH; [|eassumption]. eapply reachable_update; eassumption.
Qed.
End Frames.

(** ** The steering of a chaser *)

Section Steering.
Context {F : Type} {SF : Scalar F} {RL : Raylib F}.
Local Open Scope float_scope.

Lemma avoid_firstHit : forall (c : Cop F) direction candidate walls,
  avoid c direction candidate walls
  = match firstHit c candidate walls with
    | Some wall => deflect c direction wall
    | None => candidate
    end.
Proof.
  intros c direction candidate walls; unfold firstHit.
  induction walls as [|wall walls IH]; cbn [avoid find]; [reflexivity|].
  destruct (CheckCollisionCircleRec candidate (of_int (radius c)) (rect wall));
    [reflexivity | exact IH].
Qed.

Lemma firstHit_app : forall (c : Cop F) candidate before wall after,
  firstHit c candidate before = None ->
  CheckCollisionCircleRec candidate (of_int (radius c)) (rect wall) = true ->
  firstHit c candidate (before ++ wall :: after) = Some wall.
Proof.
  unfold firstHit; intros c candidate before wall after N Hit.
  induction before as [|w before IH]; cbn [app find] in *.
  - rewrite Hit; reflexivity.
  - destruct (CheckCollisionCircleRec candidate (of_int (radius c)) (rect w));
      [discriminate | auto].
Qed.

Lemma clamp_inBounds : forall radius (p : Vector2 F),
  inBounds radius p -> clamp radius p = p.
Proof.
  intros radius p (A & B & C & D); unfold clamp.
  rewrite A, B, C, D; reflexivity.
Qed.

(** C2 (as amended).  One steering step commits the arena clamp of a
    position chosen as follows: the walls are tested in list order against
    the candidate [position + normalize(target - position) * speed]; with no
    overlapping wall the candidate is chosen; otherwise, at the first
    overlapping wall only, the sidestep along [(-dy, dx)] scaled by [speed]
    is chosen if it does not overlap that wall, else the opposite sidestep if
    it does not overlap that wall, else the current position.  The walls
    after the first overlapping one have no influence, and a chaser that
    lies within the arena bounds and finds both sidesteps blocked keeps its
    position. *)
Theorem Cop_move_first_hit_only : forall (target : Character F) walls (c : Cop F),
  let direction := Normalize (Subtract (position target) (position c)) in
  let candidate := Add (position c) (Scale direction (speed c)) in
  let perpendicular := mkVector2 (- y direction) (x direction) in
  let sidestep1 := Add (position c) (Scale perpendicular (speed c)) in
  let sidestep2 := Add (position c) (Scale perpendicular (- speed c)) in
  let overlaps p (wall : Wall F) :=
    CheckCollisionCircleRec p (of_int (radius c)) (rect wall) in
  position (Cop_move target walls c)
  = clamp (radius c)
      match firstHit c candidate walls with
      | None => candidate
      | Some wall =>
          if negb (overlaps sidestep1 wall) then sidestep1
          else if negb (overlaps sidestep2 wall) then sidestep2
          else position c
      end
  /\ (forall before wall after after',
        walls = before ++ wall :: after ->
        firstHit c candidate before = None ->
        overlaps candidate wall = true ->
        Cop_move target (before ++ wall :: after') c = Cop_move target walls c)
  /\ (forall wall,
        firstHit c candidate walls = Some wall ->
        overlaps sidestep1 wall = true -> overlaps sidestep2 wall = true ->
        inBounds (radius c) (position c) ->
        position (Cop_move target walls c) = position c).
Proof.
  intros target walls c direction candidate perpendicular sidestep1 sidestep2
         overlaps.
  assert (position (Cop_move target walls c)
          = clamp (radius c)
              match firstHit c candidate walls with
              | None => candidate
              | Some wall =>
                  if negb (overlaps sidestep1 wall) then sidestep1
                  else if negb (overlaps sidestep2 wall) then sidestep2
                  else position c
              end) as Choice.
  { unfold Cop_move; project. fold direction candidate.
    rewrite avoid_firstHit. destruct (firstHit c candidate walls); reflexivity. }
  split; [exact Choice | split].
  - intros before wall after after' -> N Hit.
    unfold Cop_move. fold direction candidate.
    rewrite !avoid_firstHit.
    rewrite !(firstHit_app c candidate before wall) by assumption.
    reflexivity.
  - intros wall Hit B1 B2 In. rewrite Choice, Hit, B1, B2.
    apply clamp_inBounds; assumption.
Qed.
End Steering.

(** ** The frame update *)

Section Update.
Context {F : Type} {SF : Scalar F} {RL : Raylib F}.

Lemma run_frozen : forall inputs (g : Game F) rs,
  terminal g -> Forall noReset inputs -> run inputs g rs = Some (g, rs).
Proof.
  induction inputs as [|input inputs IH]; intros g rs T N; [reflexivity|].
  inversion N as [|? ? N1 N2]; subst.
  cbn [run]; unfold bind. rewrite update_terminal by assumption.
  unfold noReset in N1; rewrite N1. apply IH; assumption.
Qed.

(** C3.  Once the caught flag or the escaped flag is set, the frames in
    which the reset key is not pressed leave the whole session, and so
    every position, the score and the level, as it is; the only other thing a
    frame can do is [resetGame], when the key is pressed. *)
Theorem terminal_frames_wait_for_reset : forall (g : Game F),
  terminal g ->
  (forall inputs rs, Forall noReset inputs -> run inputs g rs = Some (g, rs))
  /\ (forall input rs, noReset input -> update input g rs = Some (g, rs))
  /\ (forall input rs, IsKeyPressed input KEY_R = true ->
                       update input g rs = resetGame g rs).
Proof.
  intros g T; split; [|split].
  - intros inputs rs N; apply run_frozen; assumption.
  - intros input rs N; rewrite update_terminal by assumption.
    unfold noReset in N; rewrite N; reflexivity.
  - intros input rs R; rewrite update_terminal by assumption.
    rewrite R; reflexivity.
Qed.

Lemma update_robber : forall input (g : Game F) rs g' rs',
  playing g -> update input g rs = Some (g', rs') ->
  robber g' = robber (play input g).
Proof.
  intros input g rs g' rs' P E.
  destruct (update_playing_Some _ _ _ _ _ P E)
    as [(_ & -> & _) | (_ & g1 & A & ->)].
  - apply checkDoor_static.
  - destruct (checkDoor_static g1) as (_ & _ & _ & _ & -> & _).
    apply advanceLevel_Some in A; apply A.
Qed.

(** C7.  In a frame of play the robber's move is tried and then tested
    against every wall: when the position after [Robber::move] overlaps a
    wall, the robber ends the frame at the position it started from, and
    otherwise at the position after the move. *)
Theorem robber_move_or_revert : forall input (g : Game F),
  playing g ->
  let moved := position (Robber_move input (robber g)) in
  let blocked :=
    existsb (fun wall => CheckCollisionCircleRec
                           moved (of_int (radius (robber g))) (rect wall))
            (walls g) in
  position (robber (play input g))
  = (if blocked then position (robber g) else moved)
  /\ forall rs g' rs',
       update input g rs = Some (g', rs') ->
       position (robber g') = if blocked then position (robber g) else moved.
Proof.
  intros input g P moved blocked.
  assert (position (robber (play input g))
          = if blocked then position (robber g) else moved) as E.
  { rewrite play_position. unfold moveRobber; project.
    unfold blocked, moved.
    replace (radius (Robber_move input (robber g))) with (radius (robber g))
      by reflexivity.
    destruct (existsb _ (walls g)); reflexivity. }
  split; [exact E|].
  intros rs g' rs' U. rewrite (update_robber _ _ _ _ _ P U). exact E.
Qed.

(** C8.  Between two frames the score lies between 0 and the quota of 5.
    Within a frame of play the coin loop adds one for each coin that was
    uncollected and overlaps the robber; when that brings the score to 5 or
    more the frame ends with the score back at 0, and otherwise with the
    score the loop left. *)
Theorem score_within_quota : forall (g : Game F),
  reachable g ->
  0 <= score g <= maxCoins
  /\ forall input,
       playing g ->
       score (play input g)
       = score g + newlyCollected (robber (moveRobber input g)) (coins g)
       /\ forall rs g' rs',
            update input g rs = Some (g', rs') ->
            score g' = if score (play input g) >=? maxCoins
                       then 0 else score (play input g).
Proof.
  intros g R.
  destruct (reachable_invariant g R) as (_ & _ & _ & Sc).
  split; [lia|]. intros input P. split; [apply play_score|].
  intros rs g' rs' U.
  destruct (update_playing_Some _ _ _ _ _ P U)
    as [(Lt & -> & _) | (Ge & g1 & A & ->)].
  - destruct (checkDoor_static (play input g)) as (_ & -> & _).
    destruct (Z.geb_spec (score (play input g)) maxCoins); [lia|reflexivity].
  - destruct (checkDoor_static g1) as (_ & -> & _).
    apply advanceLevel_Some in A as (_ & -> & _).
    destruct (Z.geb_spec (score (play input g)) maxCoins); [reflexivity|lia].
Qed.
End Update.

(** ** Levels and reset *)

Section Levels.
Context {F : Type} {SF : Scalar F} {RL : Raylib F}.

(** C4.  In a frame of play at level 1 that starts with score 4 and in
    which the robber overlaps exactly one uncollected coin, the coin loop
    brings the score to 5; the frame completes whenever [rand()] supplies six
    sampling rounds that miss every wall, and it ends at level 2 with score
    0, five fresh uncollected coins outside every wall and a slowing zone of
    multiplier 0.75.  When the quota is met at level 3 or beyond, the frame
    ends with the game-over flag set, as does [advanceLevel] itself. *)
Theorem quota_met_advances_level : forall input (g : Game F),
  playing g ->
  (level g = 1 -> score g = 4 ->
   newlyCollected (robber (moveRobber input g)) (coins g) = 1 ->
   score (play input g) = 5
   /\ (forall rs, (Z.to_nat maxCoins + 1 <= supply (walls g) rs)%nat ->
                  exists g' rs', update input g rs = Some (g', rs'))
   /\ forall rs g' rs',
        update input g rs = Some (g', rs') ->
        level g' = 2 /\ score g' = 0
        /\ length (coins g') = 5%nat
        /\ Forall (fresh (walls g) rs) (coins g')
        /\ exists zone, slowingZone g' = Some zone
                        /\ slowEffect zone = dyadic 3 (-2))
  /\ (3 <= level g -> maxCoins <= score (play input g) ->
      forall rs g' rs',
        update input g rs = Some (g', rs') ->
        gameOver g' = true /\ level g' = level g + 1)
  /\ (3 <= level g ->
      forall rs g' rs',
        advanceLevel g rs = Some (g', rs') ->
        gameOver g' = true /\ level g' = level g + 1).
Proof.
  intros input g P.
  destruct (play_static input g) as (El & Ez & Ew & _).
  pose proof (play_score input g) as Es.
  split; [|split].
  - intros L1 S4 N1. rewrite S4, N1 in Es.
    split; [exact Es | split].
    + intros rs Sup; apply update_total; exact Sup.
    + intros rs g' rs' U.
      destruct (update_playing_Some _ _ _ _ _ P U)
        as [(Lt & _) | (_ & g1 & A & ->)]; [unfold maxCoins in Lt; lia|].
      destruct (checkDoor_static g1) as (-> & -> & _ & -> & _ & -> & _).
      apply advanceLevel_Some in A
        as (Al & As & _ & _ & _ & _ & Len & Fr & A2 & _).
      rewrite El, L1 in Al, A2. rewrite Ew in Fr.
      destruct (A2 eq_refl) as (_ & _ & _ & zone & Zn & Eff & _).
      repeat split; auto. exists zone; auto.
  - intros L3 Q rs g' rs' U.
    destruct (update_playing_Some _ _ _ _ _ P U)
      as [(Lt & _) | (_ & g1 & A & ->)]; [lia|].
    destruct (checkDoor_static g1) as (-> & _ & -> & _).
    apply advanceLevel_Some in A
      as (Al & _ & _ & _ & _ & _ & _ & _ & _ & _ & A4).
    rewrite El in Al, A4. split; [apply A4; lia | exact Al].
  - intros L3 rs g' rs' A.
    apply advanceLevel_Some in A
      as (Al & _ & _ & _ & _ & _ & _ & _ & _ & _ & A4).
    split; [apply A4; lia | exact Al].
Qed.

(** C1.  The reset key in a terminal state: the frame completes whenever
    [rand()] supplies five sampling rounds that miss every wall, and it ends
    with level 1, score 0, both terminal flags false, no second chaser, no
    slowing zone, no door, five fresh uncollected coins outside every wall
    and the first chaser rebuilt at (100,100).  The robber is the one member
    that [resetGame] does not write: it stays where the session ended. *)
Theorem reset_leaves_robber_in_place : forall input (g : Game F),
  terminal g -> IsKeyPressed input KEY_R = true ->
  (forall rs, (Z.to_nat maxCoins <= supply (walls g) rs)%nat ->
              exists g' rs', update input g rs = Some (g', rs'))
  /\ forall rs g' rs',
       update input g rs = Some (g', rs') ->
       level g' = 1 /\ score g' = 0
       /\ gameOver g' = false /\ robberEscaped g' = false
       /\ cop2 g' = None /\ slowingZone g' = None /\ door g' = None
       /\ length (coins g') = 5%nat
       /\ Forall (fresh (walls g) rs) (coins g')
       /\ position (cop g') = mkVector2 (dyadic 100 0) (dyadic 100 0)
       /\ robber g' = robber g.
Proof.
  intros input g T R; split.
  - intros rs Sup. rewrite update_terminal, R by assumption.
    apply resetGame_total; exact Sup.
  - intros rs g' rs' U. rewrite update_terminal, R in U by assumption.
    apply resetGame_Some in U
      as (Es & El & Eo & Ee & E2 & Ez & Ed & Ec & Len & Fr & _ & Er).
    rewrite Ec. repeat split; auto.
Qed.
End Levels.

(** ** The slowing zone *)

Section Zone.
Context {F : Type} {SF : Scalar F} {RL : Raylib F}.

Lemma adjustSpeed_speed : forall g : Game F,
  speed (robber (adjustSpeed g))
  = match slowingZone g with
    | Some zone => if isInside zone (position (robber g))
                   then dyadic 27 (-3) else dyadic 9 (-1)
    | None => dyadic 9 (-1)
    end.
Proof. intro g; unfold adjustSpeed; fields. Qed.

End Zone.

(** ** A chaser with its target straight to the right *)

Lemma bounded_cases : forall (P : Z -> Prop) (n : nat),
  Forall P (map Z.of_nat (seq 0 (S n))) ->
  forall r, 0 <= r <= Z.of_nat n -> P r.
Proof.
  intros P n A r B. rewrite Forall_forall in A. apply A.
  rewrite <- (Z2Nat.id r) by lia. apply in_map, in_seq. lia.
Qed.

Lemma clamp_unit_step : forall (RL : Raylib Binary32.float),
  GetScreenWidth = screenWidth -> GetScreenHeight = screenHeight ->
  forall r, 0 <= r <= 300 ->
    clamp r (mkVector2 (dyadic 1 0) (dyadic 0 0))
    = (mkVector2 (of_int (Z.max 1 r)) (of_int r) : Vector2 Binary32.float).
Proof.
  intros RL W H. unfold clamp. rewrite W, H.
  apply (bounded_cases _ 300).
  set (radii := map Z.of_nat (seq 0 301)). vm_compute in radii. subst radii.
  repeat (constructor; [vm_compute; reflexivity|]). constructor.
Qed.

(** C5 (as amended).  In the 800 by 600 arena, a chaser at (0,0) with speed
    1 and radius [r] between 0 and 300, whose target is at (10,0), with no
    wall, is moved by one steering step to the arena clamp of (1,0), which is
    (max(1,r), r): exactly (1,0) for radius 0, and (20,20) for the radius 20 of
    the game's chasers.  Its facing angle becomes 0, given that
    [atan2f(0, 1)] is 0. *)
Theorem Cop_move_unit_step_is_clamped :
  forall (RL : Raylib Binary32.float) (target : Character Binary32.float)
         (c : Cop Binary32.float),
    GetScreenWidth = screenWidth -> GetScreenHeight = screenHeight ->
    atan2f (dyadic 0 0) (dyadic 1 0 : Binary32.float) = dyadic 0 0 ->
    position c = Scenario.vec 0 0 -> speed c = dyadic 1 0 ->
    position target = Scenario.vec 10 0 ->
    0 <= radius c <= 300 ->
    position (Cop_move target [] c)
    = Scenario.vec (Z.max 1 (radius c)) (radius c)
    /\ (radius c = 0 -> position (Cop_move target [] c) = Scenario.vec 1 0)
    /\ rotation (Cop_move target [] c) = dyadic 0 0.
Proof.
  intros RL target c W H Atan Pc Sc Pt Rc.
  assert (Normalize (Subtract (position target) (position c))
          = mkVector2 (dyadic 1 0) (dyadic 0 0)) as Dir.
  { rewrite Pt, Pc. vm_compute. reflexivity. }
  assert (position (Cop_move target [] c)
          = Scenario.vec (Z.max 1 (radius c)) (radius c)) as Pos.
  { unfold Cop_move; project; cbn [avoid]. rewrite Dir, Pc, Sc.
    replace (Add (Scenario.vec 0 0)
                 (Scale (mkVector2 (dyadic 1 0) (dyadic 0 0)) (dyadic 1 0)))
      with (mkVector2 (dyadic 1 0) (dyadic 0 0) : Vector2 Binary32.float)
      by (vm_compute; reflexivity).
    apply clamp_unit_step; assumption. }
  split; [exact Pos | split].
  - intro R0. rewrite Pos, R0. reflexivity.
  - unfold Cop_move; cbn [rotation]. rewrite Dir. cbn [x y]. rewrite Atan.
    vm_compute. reflexivity.
Qed.

(** ** Rounding in binary32

    What [SpecFloat] computes for a product, a sum of positive numbers, a
    square root and a quotient of normal numbers, when the result is in the
    normal range: a normal number within one unit in the last place of the
    exact result, hence within the relative error [eps] of it. *)

Section Shifts.
Lemma digits2_pos_bounds : forall m : positive,
  2 ^ (Z.pos (digits2_pos m) - 1) <= Z.pos m < 2 ^ Z.pos (digits2_pos m).
Proof.
  induction m as [m IH | m IH |]; cbn [digits2_pos].
  - rewrite Pos2Z.inj_succ. change (Z.pos m~1) with (2 * Z.pos m + 1).
    replace (Z.succ (Z.pos (digits2_pos m)) - 1)
      with (Z.succ (Z.pos (digits2_pos m) - 1)) by lia.
    rewrite !Z.pow_succ_r by lia.
    destruct IH as [Lo Hi]; revert Lo Hi.
    generalize (2 ^ (Z.pos (digits2_pos m) - 1)) (2 ^ Z.pos (digits2_pos m)).
    intros; lia.
  - rewrite Pos2Z.inj_succ. change (Z.pos m~0) with (2 * Z.pos m).
    replace (Z.succ (Z.pos (digits2_pos m)) - 1)
      with (Z.succ (Z.pos (digits2_pos m) - 1)) by lia.
    rewrite !Z.pow_succ_r by lia.
    destruct IH as [Lo Hi]; revert Lo Hi.
    generalize (2 ^ (Z.pos (digits2_pos m) - 1)) (2 ^ Z.pos (digits2_pos m)).
    intros; lia.
  - cbn. lia.
Qed.

Lemma digits2_pos_unique : forall (m : positive) k,
  2 ^ (k - 1) <= Z.pos m < 2 ^ k -> Z.pos (digits2_pos m) = k.
Proof.
  intros m k [Lo Hi]. pose proof (digits2_pos_bounds m) as [Lo' Hi'].
  set (d := Z.pos (digits2_pos m)) in *.
  assert (0 < k) as Kpos.
  { destruct (Z_lt_le_dec 0 k); [assumption|].
    destruct (Z.eq_dec k 0) as [->|]; [cbn in Hi; lia|].
    rewrite Z.pow_neg_r in Hi by lia. lia. }
  destruct (Z_lt_le_dec d k) as [Lt|Ge].
  - assert (2 ^ d <= 2 ^ (k - 1)) by (apply Z.pow_le_mono_r; lia). lia.
  - destruct (Z_lt_le_dec k d) as [Lt|Ge']; [|lia].
    assert (2 ^ k <= 2 ^ (d - 1)) by (apply Z.pow_le_mono_r; lia). lia.
Qed.

Lemma shr_1_m : forall mrs,
  0 <= shr_m mrs -> shr_m (shr_1 mrs) = Z.div2 (shr_m mrs).
Proof.
  intros [[|[m|m|]|m] r s] N; try reflexivity. cbn [shr_m] in N. lia.
Qed.

Lemma shr_iter_m : forall p mrs,
  0 <= shr_m mrs ->
  shr_m (iter_pos shr_1 p mrs) = shr_m mrs / 2 ^ Z.pos p.
Proof.
  assert (forall mrs, 0 <= shr_m mrs -> 0 <= shr_m (shr_1 mrs)) as Nn.
  { intros mrs N. rewrite shr_1_m, Z.div2_div by exact N.
    apply Z.div_pos; lia. }
  induction p as [p IH | p IH |]; intros mrs N; cbn [iter_pos].
  - rewrite IH, IH, shr_1_m, Z.div2_div; auto.
    + rewrite !Z.div_div by (try apply Z.pow_pos_nonneg; lia).
      f_equal. change (Z.pos p~1) with (2 * Z.pos p + 1).
      replace (2 * Z.pos p + 1) with (1 + Z.pos p + Z.pos p) by lia.
      rewrite !Z.pow_add_r by lia. lia.
    + rewrite IH by auto. apply Z.div_pos; [auto | apply Z.pow_pos_nonneg; lia].
  - rewrite IH, IH; auto.
    + rewrite !Z.div_div by (try apply Z.pow_pos_nonneg; lia).
      f_equal. change (Z.pos p~0) with (2 * Z.pos p).
      replace (2 * Z.pos p) with (Z.pos p + Z.pos p) by lia.
      rewrite !Z.pow_add_r by lia. lia.
    + rewrite IH by auto. apply Z.div_pos; [auto | apply Z.pow_pos_nonneg; lia].
  - rewrite shr_1_m, Z.div2_div by exact N. reflexivity.
Qed.

Lemma round_nearest_even_bounds : forall m l,
  m <= round_nearest_even m l <= m + 1.
Proof.
  intros m [|[| |]]; cbn [round_nearest_even]; try lia.
  destruct (Z.even m); lia.
Qed.

(** The first shift of [binary_round_aux] at a mantissa of [d >= 24] bits. *)
Lemma shr_fexp_m : forall (m : positive) e l,
  let d := Z.pos (digits2_pos m) in
  24 <= d -> -149 <= d + e - 24 ->
  exists mrs,
    shr_fexp 24 128 (Z.pos m) e l = (mrs, e + (d - 24))
    /\ shr_m mrs = Z.pos m / 2 ^ (d - 24)
    /\ (d = 24 -> loc_of_shr_record mrs = l).
Proof.
  intros m e l d D Lo. unfold shr_fexp, fexp, emin. cbn [Zdigits2]. fold d.
  replace (Z.max (d + e - 24) (3 - 128 - 24) - e) with (d - 24) by lia.
  destruct (d - 24) as [|n|n] eqn:En; try lia.
  - eexists. cbn [shr]. split; [f_equal; lia|].
    split.
    + destruct l as [|[| |]]; cbn; rewrite Z.div_1_r; reflexivity.
    + intros _. destruct l as [|[| |]]; reflexivity.
  - eexists. cbn [shr]. split; [reflexivity|].
    split; [|intro; lia].
    rewrite shr_iter_m.
    + destruct l as [|[| |]]; reflexivity.
    + destruct l as [|[| |]]; cbn; lia.
Qed.

(** [binary_round_aux] at a mantissa of [d >= 24] bits whose result is in
    the normal range: the first 24 bits [f] of the mantissa, or [f + 1]. *)
Lemma round_aux_int : forall s (m : positive) e l,
  let d := Z.pos (digits2_pos m) in
  24 <= d -> -149 <= d + e - 24 -> d + e - 24 + 1 <= 104 ->
  exists (M : positive) E,
    binary_round_aux 24 128 s (Z.pos m) e l = S754_finite s M E
    /\ 2 ^ 23 <= Z.pos M < 2 ^ 24
    /\ e + (d - 24) <= E <= e + (d - 24) + 1
    /\ let f := Z.pos m / 2 ^ (d - 24) in
       2 ^ 23 <= f
       /\ f * 2 ^ (d - 24) <= Z.pos m < (f + 1) * 2 ^ (d - 24)
       /\ (Z.pos M * 2 ^ (E - (e + (d - 24))) = f
           \/ Z.pos M * 2 ^ (E - (e + (d - 24))) = f + 1).
Proof.
  intros s m e l d D Lo Hi. unfold binary_round_aux.
  destruct (shr_fexp_m m e l D Lo) as (mrs & -> & Em & _). fold d in Em.
  pose proof (digits2_pos_bounds m) as [Dl Dh]. fold d in Dl, Dh.
  set (n := d - 24) in *. set (f := Z.pos m / 2 ^ n) in *.
  assert (0 < 2 ^ n) as Pn by (apply Z.pow_pos_nonneg; lia).
  assert (2 ^ (d - 1) = 2 ^ n * 2 ^ 23) as E1
    by (rewrite <- Z.pow_add_r by lia; f_equal; lia).
  assert (2 ^ d = 2 ^ n * 2 ^ 24) as E2
    by (rewrite <- Z.pow_add_r by lia; f_equal; lia).
  assert (2 ^ 23 <= f) as Fl by (apply Z.div_le_lower_bound; lia).
  assert (f < 2 ^ 24) as Fh by (apply Z.div_lt_upper_bound; lia).
  assert (f * 2 ^ n <= Z.pos m < (f + 1) * 2 ^ n) as Fm.
  { pose proof (Z.div_mod (Z.pos m) (2 ^ n)) as Dm.
    pose proof (Z.mod_pos_bound (Z.pos m) (2 ^ n) Pn) as Mb.
    fold f in Dm. lia. }
  rewrite Em.
  pose proof (round_nearest_even_bounds f (loc_of_shr_record mrs)) as [Rl Rh].
  set (m1 := round_nearest_even f (loc_of_shr_record mrs)) in *.
  destruct m1 as [|M1|M1] eqn:E1'; try (exfalso; change (2 ^ 23) with 8388608 in Fl; lia).
  fold d. fold n.
  destruct (Z_lt_le_dec (Z.pos M1) (2 ^ 24)) as [Lt|Ge].
  - assert (Z.pos (digits2_pos M1) = 24) as D1
      by (apply digits2_pos_unique; change (24 - 1) with 23; lia).
    destruct (shr_fexp_m M1 (e + n) loc_Exact) as (mrs2 & -> & Em2 & _);
      rewrite ?D1; try lia.
    rewrite Em2, D1. change (2 ^ (24 - 24)) with 1. rewrite Z.div_1_r.
    replace (e + n + (24 - 24) <=? 128 - 24) with true
      by (symmetry; apply Z.leb_le; lia).
    exists M1, (e + n). split; [f_equal; lia|].
    split; [lia|]. split; [lia|]. cbv zeta. fold f.
    split; [exact Fl|]. split; [exact Fm|].
    replace (e + n - (e + n)) with 0 by lia. change (2 ^ 0) with 1.
    rewrite Z.mul_1_r. lia.
  - assert (Z.pos M1 = 2 ^ 24) as EM by lia.
    assert (Z.pos (digits2_pos M1) = 25) as D1
      by (apply digits2_pos_unique; rewrite EM; cbn; lia).
    destruct (shr_fexp_m M1 (e + n) loc_Exact) as (mrs2 & -> & Em2 & _);
      rewrite ?D1; try lia.
    rewrite Em2, D1, EM. change (2 ^ 24 / 2 ^ (25 - 24)) with (Z.pos 8388608).
    cbv iota beta.
    replace (e + n + (25 - 24) <=? 128 - 24) with true
      by (symmetry; apply Z.leb_le; lia).
    exists 8388608%positive, (e + n + 1). split; [f_equal; lia|].
    split; [cbn; lia|]. split; [lia|]. cbv zeta. fold f.
    split; [exact Fl|]. split; [exact Fm|].
    replace (e + n + 1 - (e + n)) with 1 by lia.
    right. change (Z.pos 8388608 * 2 ^ 1) with (2 ^ 24). lia.
Qed.
End Shifts.

Section Relative.
Lemma bpow_pos : forall e, (0 < bpow e)%R.
Proof. intro e. apply powerRZ_lt. lra. Qed.

Lemma bpow_add : forall a b, bpow (a + b) = (bpow a * bpow b)%R.
Proof. intros a b. apply powerRZ_add. lra. Qed.

Lemma IZR_pow2 : forall n, 0 <= n -> IZR (2 ^ n) = bpow n.
Proof.
  intros n N. rewrite <- (Z2Nat.id n) by exact N.
  rewrite <- pow_IZR. apply pow_powerRZ.
Qed.

Lemma val_pos : forall m e, (0 < val m e)%R.
Proof.
  intros m e. unfold val. apply Rmult_lt_0_compat; [|apply bpow_pos].
  apply IZR_lt. lia.
Qed.

(** A number within one unit of [rho >= 2^23] is [rho] up to [eps]. *)
Lemma unit_relative : forall F f rho : R,
  (8388608 <= f)%R -> (f <= rho <= f + 1)%R -> F = f \/ F = (f + 1)%R ->
  exists delta, F = (rho * (1 + delta))%R /\ (Rabs delta <= eps)%R.
Proof.
  intros F f rho Lo [A B] C.
  assert (0 < rho)%R as Pr by lra.
  exists ((F - rho) / rho)%R. split; [field; lra|].
  assert (0 < / rho <= eps)%R as [Ip Iu].
  { split; [apply Rinv_0_lt_compat; exact Pr|].
    unfold eps. apply Rinv_le_contravar; lra. }
  assert (-1 <= F - rho <= 1)%R as [Dl Dh] by (destruct C; subst; lra).
  unfold Rdiv. apply Rabs_le. unfold eps in *. split; nra.
Qed.

(** The same in real numbers: when [m * 2^e <= r <= (m + 1) * 2^e], the
    result is [r] up to [eps]. *)
Lemma round_aux_R : forall s (m : positive) e l (r : R),
  let d := Z.pos (digits2_pos m) in
  24 <= d -> -149 <= d + e - 24 -> d + e - 24 + 1 <= 104 ->
  (val m e <= r <= IZR (Z.pos m + 1) * bpow e)%R ->
  exists (M : positive) E delta,
    binary_round_aux 24 128 s (Z.pos m) e l = S754_finite s M E
    /\ 2 ^ 23 <= Z.pos M < 2 ^ 24
    /\ e + (d - 24) <= E <= e + (d - 24) + 1
    /\ val M E = (r * (1 + delta))%R /\ (Rabs delta <= eps)%R.
Proof.
  intros s m e l r d D Lo Hi [Rl Rh].
  destruct (round_aux_int s m e l D Lo Hi)
    as (M & E & Eq & NM & RE & Fl & [Fm1 Fm2] & FM).
  fold d in RE, Fl, Fm1, Fm2, FM.
  set (n := d - 24) in *. set (f := Z.pos m / 2 ^ n) in *.
  destruct (unit_relative (IZR (Z.pos M * 2 ^ (E - (e + n)))) (IZR f)
                          (r / bpow (e + n))) as (delta & Ed & Bd).
  - change 8388608%R with (IZR (2 ^ 23)). apply IZR_le. exact Fl.
  - pose proof (bpow_pos (e + n)) as Pb. pose proof (bpow_pos e) as Pe.
    assert (bpow (e + n) = IZR (2 ^ n) * bpow e)%R as Eb
      by (rewrite Z.add_comm, bpow_add, IZR_pow2 by lia; reflexivity).
    apply IZR_le in Fm1. apply Z.lt_le_incl in Fm2 as Fm3.
    apply Zlt_le_succ in Fm2. unfold Z.succ in Fm2. apply IZR_le in Fm2.
    rewrite mult_IZR in Fm1, Fm2. rewrite <- plus_IZR.
    unfold val in Rl.
    split.
    + apply Rmult_le_reg_r with (bpow (e + n)); [exact Pb|].
      unfold Rdiv. rewrite Rmult_assoc, Rinv_l, Rmult_1_r by lra.
      rewrite Eb. nra.
    + apply Rmult_le_reg_r with (bpow (e + n)); [exact Pb|].
      unfold Rdiv. rewrite Rmult_assoc, Rinv_l, Rmult_1_r by lra.
      rewrite Eb. nra.
  - destruct FM as [-> | ->]; [left; reflexivity | right; apply plus_IZR].
  - exists M, E, delta. repeat split; try assumption; try lia.
    unfold val. pose proof (bpow_pos (e + n)) as Pb.
    replace E with ((E - (e + n)) + (e + n)) at 1 by lia.
    rewrite bpow_add, <- IZR_pow2 by lia.
    rewrite <- Rmult_assoc, <- mult_IZR, Ed. field. lra.
Qed.

Lemma full_digits : forall m, full m -> Z.pos (digits2_pos m) = 24.
Proof. intros m H. apply digits2_pos_unique. exact H. Qed.

Lemma digits_between : forall (m : positive) a b,
  0 <= a -> 2 ^ a <= Z.pos m < 2 ^ b -> a + 1 <= Z.pos (digits2_pos m) <= b.
Proof.
  intros m a b A [Lo Hi]. pose proof (digits2_pos_bounds m) as [Dl Dh].
  set (d := Z.pos (digits2_pos m)) in *. split.
  - destruct (Z_lt_le_dec d (a + 1)); [|assumption].
    assert (2 ^ d <= 2 ^ a) by (apply Z.pow_le_mono_r; lia). lia.
  - destruct (Z_lt_le_dec b d); [|assumption].
    assert (2 ^ b <= 2 ^ (d - 1)) by (apply Z.pow_le_mono_r; lia). lia.
Qed.

(** The product of two normal numbers. *)
Lemma mul_normal : forall sx mx ex sy my ey,
  full mx -> full my -> -149 <= ex + ey + 23 -> ex + ey + 25 <= 104 ->
  exists M E delta,
    SFmul 24 128 (S754_finite sx mx ex) (S754_finite sy my ey)
    = S754_finite (xorb sx sy) M E
    /\ full M /\ ex + ey + 23 <= E <= ex + ey + 25
    /\ val M E = (val mx ex * val my ey * (1 + delta))%R
    /\ (Rabs delta <= eps)%R.
Proof.
  intros sx mx ex sy my ey [Xl Xh] [Yl Yh] Lo Hi. cbn [SFmul].
  assert (2 ^ 46 <= Z.pos (mx * my) < 2 ^ 48) as P.
  { rewrite Pos2Z.inj_mul. change (2 ^ 46) with (2 ^ 23 * 2 ^ 23).
    change (2 ^ 48) with (2 ^ 24 * 2 ^ 24). split.
    - apply Z.mul_le_mono_nonneg; lia.
    - apply Z.mul_lt_mono_nonneg; lia. }
  pose proof (digits_between (mx * my) 46 48 ltac:(lia) P) as D.
  destruct (round_aux_R (xorb sx sy) (mx * my) (ex + ey) loc_Exact
                        (val mx ex * val my ey))
    as (M & E & delta & Eq & NM & RE & EV & Bd); try lia.
  - unfold val. rewrite bpow_add, Pos2Z.inj_mul, mult_IZR, plus_IZR, mult_IZR.
    pose proof (bpow_pos ex). pose proof (bpow_pos ey).
    assert (0 < bpow ex * bpow ey)%R by (apply Rmult_lt_0_compat; assumption).
    split; [right; ring | nra].
  - exists M, E, delta. repeat split; try assumption; lia.
Qed.

Lemma iter_xO : forall d m, Z.pos (Pos.iter xO m d) = Z.pos m * 2 ^ Z.pos d.
Proof.
  induction d as [|d IH] using Pos.peano_ind; intro m.
  - cbn. lia.
  - rewrite Pos.iter_succ, Pos2Z.inj_succ, Z.pow_succ_r by lia.
    change (Z.pos (Pos.iter xO m d)~0) with (2 * Z.pos (Pos.iter xO m d)).
    rewrite IH. ring.
Qed.

Lemma shl_align_low : forall m e e',
  e' <= e -> Z.pos (fst (shl_align m e e')) = Z.pos m * 2 ^ (e - e').
Proof.
  intros m e e' Le. unfold shl_align.
  destruct (e' - e) as [|d|d] eqn:Ed; try lia.
  - replace (e - e') with 0 by lia. cbn [fst]. lia.
  - cbn [fst]. rewrite iter_xO. f_equal. f_equal. lia.
Qed.

Lemma binary_round_full : forall s (m : positive) e,
  24 <= Z.pos (digits2_pos m) -> -149 <= e ->
  binary_round 24 128 s m e = binary_round_aux 24 128 s (Z.pos m) e loc_Exact.
Proof.
  intros s m e D Lo. unfold binary_round, shl_align, fexp, emin.
  destruct (Z.max (Z.pos (digits2_pos m) + e - 24) (3 - 128 - 24) - e)
    as [|d|d] eqn:Ed; try reflexivity. lia.
Qed.

(** The sum of two positive normal numbers. *)
Lemma add_normal : forall mx ex my ey,
  full mx -> full my -> -149 <= ex -> -149 <= ey ->
  Z.max ex ey + 2 <= 104 ->
  exists M E delta,
    SFadd 24 128 (S754_finite false mx ex) (S754_finite false my ey)
    = S754_finite false M E
    /\ full M /\ Z.max ex ey <= E <= Z.max ex ey + 2
    /\ val M E = ((val mx ex + val my ey) * (1 + delta))%R
    /\ (Rabs delta <= eps)%R.
Proof.
  intros mx ex my ey [Xl Xh] [Yl Yh] Lx Ly Hi. cbn [SFadd cond_Zopp].
  set (ez := Z.min ex ey).
  pose proof (shl_align_low mx ex ez ltac:(lia)) as Ax.
  pose proof (shl_align_low my ey ez ltac:(lia)) as Ay.
  set (ax := fst (shl_align mx ex ez)) in *.
  set (ay := fst (shl_align my ey ez)) in *.
  change (Z.pos ax + Z.pos ay) with (Z.pos (ax + ay)).
  cbn [binary_normalize].
  set (k := Z.max ex ey - ez).
  assert (0 <= k) as Kn by lia.
  assert (0 < 2 ^ (ex - ez)) as Px by (apply Z.pow_pos_nonneg; lia).
  assert (0 < 2 ^ (ey - ez)) as Py by (apply Z.pow_pos_nonneg; lia).
  assert (2 ^ (ex - ez) <= 2 ^ k) as Kx by (apply Z.pow_le_mono_r; lia).
  assert (2 ^ (ey - ez) <= 2 ^ k) as Ky by (apply Z.pow_le_mono_r; lia).
  assert (2 ^ (ex - ez) = 2 ^ k \/ 2 ^ (ey - ez) = 2 ^ k) as Kone.
  { unfold k. destruct (Z.max_spec ex ey) as [[_ ->] | [_ ->]]; auto. }
  assert (2 ^ (23 + k) <= Z.pos (ax + ay) < 2 ^ (25 + k)) as P.
  { rewrite Pos2Z.inj_add, Ax, Ay, !Z.pow_add_r by lia.
    change (2 ^ 25) with (2 * 2 ^ 24). split; nia. }
  pose proof (digits_between (ax + ay) (23 + k) (25 + k) ltac:(lia) P) as D.
  rewrite binary_round_full by lia.
  destruct (round_aux_R false (ax + ay) ez loc_Exact
                        (val mx ex + val my ey))
    as (M & E & delta & Eq & NM & RE & EV & Bd); try lia.
  - assert (val mx ex + val my ey = IZR (Z.pos (ax + ay)) * bpow ez)%R as Ev.
    { unfold val. rewrite Pos2Z.inj_add, plus_IZR, Ax, Ay, !mult_IZR.
      rewrite !IZR_pow2 by lia.
      replace ex with ((ex - ez) + ez) at 1 by lia.
      replace ey with ((ey - ez) + ez) at 1 by lia.
      rewrite !bpow_add. ring. }
    rewrite Ev. unfold val. pose proof (bpow_pos ez). rewrite plus_IZR.
    split; [right; reflexivity | nra].
  - exists M, E, delta. repeat split; try assumption; lia.
Qed.

Lemma bpow_sub : forall a b, bpow (a - b) = (bpow a / bpow b)%R.
Proof.
  intros a b. pose proof (bpow_pos b).
  replace a with ((a - b) + b) at 2 by lia. rewrite bpow_add. field. lra.
Qed.

Lemma sqrt_above : forall a b : R, (0 <= a)%R -> (a * a <= b)%R -> (a <= sqrt b)%R.
Proof.
  intros a b A H. rewrite <- (sqrt_square a A). apply sqrt_le_1_alt. exact H.
Qed.

Lemma sqrt_below : forall a b : R, (0 <= a)%R -> (b <= a * a)%R -> (sqrt b <= a)%R.
Proof.
  intros a b A H. rewrite <- (sqrt_square a A). apply sqrt_le_1_alt. exact H.
Qed.

(** The square root of a positive normal number. *)
Lemma sqrt_normal : forall m e,
  full m -> -250 <= e <= 200 ->
  exists M E delta,
    SFsqrt 24 128 (S754_finite false m e) = S754_finite false M E
    /\ full M /\ e - 24 <= 2 * E <= e - 21
    /\ val M E = (sqrt (val m e) * (1 + delta))%R
    /\ (Rabs delta <= eps)%R.
Proof.
  intros m e Fm Re. pose proof Fm as [Ml Mh].
  cbn [SFsqrt]. unfold SFsqrt_core_binary. cbn [Zdigits2].
  rewrite (full_digits m Fm).
  pose proof (Z.div2_odd (24 + e + 1)) as Hh.
  pose proof (Z.div2_odd e) as Hg.
  set (h := Z.div2 (24 + e + 1)) in *. set (g := Z.div2 e) in *.
  assert (0 <= Z.b2z (Z.odd (24 + e + 1)) <= 1) as B1
    by (destruct (Z.odd (24 + e + 1)); cbn; lia).
  assert (0 <= Z.b2z (Z.odd e) <= 1) as B2 by (destruct (Z.odd e); cbn; lia).
  replace (Z.min (fexp 24 128 h) g) with (h - 24)
    by (unfold fexp, emin; lia).
  set (e' := h - 24).
  assert (e - 2 * e' = 23 \/ e - 2 * e' = 24) as Es by (unfold e'; lia).
  assert (exists s, e - 2 * e' = s /\ 0 <= s /\ (s = 23 \/ s = 24)
                    /\ match e - 2 * e' with
                       | Z.pos _ => Z.shiftl (Z.pos m) (e - 2 * e')
                       | 0 => Z.pos m
                       | Z.neg _ => 0
                       end = Z.pos m * 2 ^ s) as (s & Es' & Sn & S2 & ->).
  { exists (e - 2 * e'). split; [reflexivity | split; [lia | split; [lia|]]].
    destruct Es as [-> | ->]; rewrite Z.shiftl_mul_pow2 by lia; reflexivity. }
  assert (2 ^ 46 <= Z.pos m * 2 ^ s < 2 ^ 48) as Pm.
  { destruct S2 as [-> | ->].
    - change (2 ^ 46) with (2 ^ 23 * 2 ^ 23).
      change (2 ^ 48) with (2 ^ 24 * 2 ^ 24).
      change (2 ^ 24) with (2 * 2 ^ 23) at 2. lia.
    - change (2 ^ 46) with (2 ^ 22 * 2 ^ 24).
      change (2 ^ 48) with (2 ^ 24 * 2 ^ 24).
      change (2 ^ 23) with (2 * 2 ^ 22) in Ml. lia. }
  pose proof (Z.sqrtrem_spec (Z.pos m * 2 ^ s) ltac:(lia)) as Sq.
  destruct (Z.sqrtrem (Z.pos m * 2 ^ s)) as [q r].
  destruct Sq as [Sq [R0 R2]].
  assert (2 ^ 23 <= q < 2 ^ 24) as Q.
  { change (2 ^ 46) with (2 ^ 23 * 2 ^ 23) in Pm.
    change (2 ^ 48) with (2 ^ 24 * 2 ^ 24) in Pm. split; nia. }
  destruct q as [|Q'|Q']; try (change (2 ^ 23) with 8388608 in Q; lia).
  set (l := if r =? 0 then loc_Exact
            else loc_Inexact (if r <=? Z.pos Q' then Lt else Gt)).
  destruct (round_aux_R false Q' e' l (sqrt (val m e)))
    as (M & E & delta & Eq & NM & RE & EV & Bd);
    rewrite ?(full_digits Q' Q); try (unfold e'; lia).
  - assert (val m e = IZR (Z.pos m * 2 ^ s) * (bpow e' * bpow e'))%R as Ev.
    { unfold val. rewrite mult_IZR, IZR_pow2, <- !bpow_add by lia.
      rewrite Rmult_assoc, <- bpow_add. do 2 f_equal. lia. }
    pose proof (bpow_pos e') as Pb.
    rewrite Ev, Sq. unfold val. split.
    + apply sqrt_above.
      * apply Rmult_le_pos; [apply IZR_le; lia | lra].
      * rewrite plus_IZR, mult_IZR. apply IZR_le in R0. nra.
    + apply sqrt_below.
      * apply Rmult_le_pos; [apply IZR_le; lia | lra].
      * assert (Z.pos Q' * Z.pos Q' + r <= (Z.pos Q' + 1) * (Z.pos Q' + 1))
          as Le by lia.
        apply IZR_le in Le. rewrite mult_IZR in Le. nra.
  - exists M, E, delta. rewrite (full_digits Q' Q) in RE.
    repeat split; try assumption; unfold e' in RE; lia.
Qed.

(** The quotient of two normal numbers. *)
Lemma div_normal : forall sx mx ex sy my ey,
  full mx -> full my -> -149 <= ex - ey - 24 -> ex - ey - 22 <= 104 ->
  exists M E delta,
    SFdiv 24 128 (S754_finite sx mx ex) (S754_finite sy my ey)
    = S754_finite (xorb sx sy) M E
    /\ full M /\ ex - ey - 24 <= E <= ex - ey - 22
    /\ val M E = (val mx ex / val my ey * (1 + delta))%R
    /\ (Rabs delta <= eps)%R.
Proof.
  intros sx mx ex sy my ey Fx Fy Lo Hi.
  pose proof Fx as [Xl Xh]. pose proof Fy as [Yl Yh].
  cbn [SFdiv]. unfold SFdiv_core_binary. cbn [Zdigits2].
  rewrite (full_digits mx Fx), (full_digits my Fy).
  replace (Z.min (fexp 24 128 (24 + ex - (24 + ey))) (ex - ey))
    with (ex - ey - 24) by (unfold fexp, emin; lia).
  replace (ex - ey - (ex - ey - 24)) with 24 by lia.
  rewrite Z.shiftl_mul_pow2 by lia.
  pose proof (Z_div_mod (Z.pos mx * 2 ^ 24) (Z.pos my) ltac:(lia)) as Dv.
  destruct (Z.div_eucl (Z.pos mx * 2 ^ 24) (Z.pos my)) as [q r].
  destruct Dv as [Dv [R0 R1]].
  assert (2 ^ 23 <= q < 2 ^ 25) as Q.
  { change (2 ^ 25) with (2 * 2 ^ 24). change (2 ^ 24) with (2 * 2 ^ 23) in *.
    split; nia. }
  destruct q as [|Q'|Q']; try (change (2 ^ 23) with 8388608 in Q; lia).
  pose proof (digits_between Q' 23 25 ltac:(lia) Q) as D.
  destruct (round_aux_R (xorb sx sy) Q' (ex - ey - 24)
                        (new_location (Z.pos my) r)
                        (val mx ex / val my ey))
    as (M & E & delta & Eq & NM & RE & EV & Bd); try lia.
  - assert (val mx ex / val my ey
            = IZR (Z.pos mx * 2 ^ 24) / IZR (Z.pos my) * bpow (ex - ey - 24))%R
      as Ev.
    { unfold val. pose proof (bpow_pos ey).
      assert (0 < IZR (Z.pos my))%R by (apply IZR_lt; lia).
      rewrite mult_IZR, IZR_pow2 by lia.
      replace ex with (24 + (ex - ey - 24) + ey) at 1 by lia.
      rewrite !bpow_add. field. lra. }
    pose proof (bpow_pos (ex - ey - 24)) as Pb.
    assert (0 < IZR (Z.pos my))%R as Py by (apply IZR_lt; lia).
    rewrite Ev, Dv. unfold val.
    assert (IZR (Z.pos Q')
            <= IZR (Z.pos my * Z.pos Q' + r) / IZR (Z.pos my)
            <= IZR (Z.pos Q' + 1))%R as [A B].
    { rewrite !plus_IZR, mult_IZR. apply IZR_le in R0.
      apply Z.lt_le_incl in R1. apply IZR_le in R1. split.
      - apply Rmult_le_reg_r with (IZR (Z.pos my)); [exact Py|].
        unfold Rdiv. rewrite Rmult_assoc, Rinv_l, Rmult_1_r by lra. nra.
      - apply Rmult_le_reg_r with (IZR (Z.pos my)); [exact Py|].
        unfold Rdiv. rewrite Rmult_assoc, Rinv_l, Rmult_1_r by lra. nra. }
    split; nra.
  - exists M, E, delta. repeat split; try assumption; lia.
Qed.
End Relative.

(** The length of the result, in real numbers, from the seven roundings of
    [Normalize]. *)
Section Tolerance.
Local Open Scope R_scope.

Lemma Rabs_eps : forall d, Rabs d <= eps -> 1 - eps <= 1 + d <= 1 + eps.
Proof.
  intros d H. unfold Rabs in H. destruct (Rcase_abs d); lra.
Qed.

(** A sum of two squares, each scaled by a factor between [lo] and [hi]. *)
Lemma weighted_between : forall X Y p q lo hi,
  lo <= p <= hi -> lo <= q <= hi ->
  lo * (X * X + Y * Y) <= X * X * p + Y * Y * q <= hi * (X * X + Y * Y).
Proof.
  intros X Y p q lo hi [Pl Ph] [Ql Qh].
  pose proof (Rle_0_sqr X) as Hx. pose proof (Rle_0_sqr Y) as Hy.
  unfold Rsqr in *. split; nra.
Qed.

Lemma square_between : forall d, Rabs d <= eps ->
  (1 - eps) * (1 - eps) <= (1 + d) * (1 + d) <= (1 + eps) * (1 + eps).
Proof.
  intros d H. apply Rabs_eps in H. unfold eps in *. split; nra.
Qed.

Lemma unit_length_bound : forall X Y d1 d2 d3 d4 d5 d6 d7 S L c,
  Rabs d1 <= eps -> Rabs d2 <= eps -> Rabs d3 <= eps -> Rabs d4 <= eps ->
  Rabs d5 <= eps -> Rabs d6 <= eps -> Rabs d7 <= eps ->
  0 < X * X + Y * Y ->
  S = (X * X * (1 + d1) + Y * Y * (1 + d2)) * (1 + d3) ->
  L = sqrt S * (1 + d4) ->
  c = 1 / L * (1 + d5) ->
  0 < c
  /\ Rabs (sqrt (X * c * (1 + d6) * (X * c * (1 + d6))
                 + Y * c * (1 + d7) * (Y * c * (1 + d7))) - 1)
     <= / 1048576.
Proof.
  intros X Y d1 d2 d3 d4 d5 d6 d7 S L c B1 B2 B3 B4 B5 B6 B7 Pos ES EL Ec.
  set (R2 := X * X + Y * Y) in *.
  set (a := 1 - eps). set (b := 1 + eps).
  assert (0 < a /\ a < 1 /\ 1 < b) as (Pa & A1 & B1') by (unfold a, b, eps; lra).
  pose proof (weighted_between X Y (1 + d1) (1 + d2) a b
                (Rabs_eps d1 B1) (Rabs_eps d2 B2)) as [Al Ah]. fold R2 in Al, Ah.
  pose proof (Rabs_eps d3 B3) as [D3l D3h]. fold a b in D3l, D3h.
  pose proof (Rabs_eps d4 B4) as [D4l D4h]. fold a b in D4l, D4h.
  pose proof (Rabs_eps d5 B5) as [D5l D5h]. fold a b in D5l, D5h.
  set (A := X * X * (1 + d1) + Y * Y * (1 + d2)) in *.
  assert (a * a * R2 <= S <= b * b * R2) as [Sl Sh].
  { assert (0 < a * R2) by (apply Rmult_lt_0_compat; assumption).
    rewrite ES. fold A. split.
    - apply Rle_trans with (a * R2 * a); [right; ring|].
      apply Rmult_le_compat; lra.
    - apply Rle_trans with (b * R2 * b); [|right; ring].
      apply Rmult_le_compat; lra. }
  assert (0 < a * a) as Paa by (apply Rmult_lt_0_compat; assumption).
  assert (0 < b * b) as Pbb by (apply Rmult_lt_0_compat; lra).
  assert (0 < S) as PS.
  { apply Rlt_le_trans with (a * a * R2); [|exact Sl].
    apply Rmult_lt_0_compat; assumption. }
  pose proof (sqrt_lt_R0 S PS) as Psq.
  pose proof (sqrt_sqrt S (Rlt_le _ _ PS)) as Esq.
  assert (0 < L) as PL by (rewrite EL; nra).
  assert (L * L = S * ((1 + d4) * (1 + d4))) as EL2
    by (rewrite EL;
        transitivity (sqrt S * sqrt S * ((1 + d4) * (1 + d4)));
        [ring | rewrite Esq; reflexivity]).
  pose proof (square_between d4 B4) as [Q4l Q4h]. fold a b in Q4l, Q4h.
  pose proof (square_between d5 B5) as [Q5l Q5h]. fold a b in Q5l, Q5h.
  assert (a * a * (a * a) * R2 <= L * L <= b * b * (b * b) * R2) as [Ll Lh].
  { rewrite EL2. split.
    - apply Rle_trans with (a * a * R2 * (a * a)); [right; ring|].
      apply Rmult_le_compat; nra.
    - apply Rle_trans with (b * b * R2 * (b * b)); [|right; ring].
      apply Rmult_le_compat; nra. }
  assert (0 < c) as Pc.
  { rewrite Ec. apply Rmult_lt_0_compat; [|lra].
    unfold Rdiv. rewrite Rmult_1_l. apply Rinv_0_lt_compat. exact PL. }
  split; [exact Pc|].
  pose proof (weighted_between X Y ((1 + d6) * (1 + d6)) ((1 + d7) * (1 + d7))
                (a * a) (b * b) (square_between d6 B6) (square_between d7 B7))
    as [Bl Bh]. fold R2 in Bl, Bh.
  set (B := X * X * ((1 + d6) * (1 + d6)) + Y * Y * ((1 + d7) * (1 + d7))) in *.
  set (P := X * c * (1 + d6) * (X * c * (1 + d6))
            + Y * c * (1 + d7) * (Y * c * (1 + d7))).
  assert (P * (L * L) = (1 + d5) * (1 + d5) * B) as EP.
  { unfold P, B. rewrite Ec. field. lra. }
  assert (0 <= P) as P0.
  { unfold P. pose proof (Rle_0_sqr (X * c * (1 + d6))).
    pose proof (Rle_0_sqr (Y * c * (1 + d7))). unfold Rsqr in *. lra. }
  set (a4 := a * a * (a * a)) in *. set (b4 := b * b * (b * b)) in *.
  assert (0 < a4) as Pa4 by (unfold a4; nra).
  assert (0 < b4) as Pb4 by (unfold b4; nra).
  assert (P * a4 <= b4 /\ a4 <= P * b4) as [Pu Pl].
  { assert ((1 + d5) * (1 + d5) * B <= b4 * R2) as U1.
    { apply Rle_trans with (b * b * (b * b * R2)); [|right; unfold b4; ring].
      apply Rmult_le_compat; nra. }
    assert (a4 * R2 <= (1 + d5) * (1 + d5) * B) as L1.
    { apply Rle_trans with (a * a * (a * a * R2)); [right; unfold a4; ring|].
      apply Rmult_le_compat; nra. }
    split.
    - apply Rmult_le_reg_r with R2; [exact Pos|].
      apply Rle_trans with (P * (L * L)); [|rewrite EP; exact U1].
      rewrite Rmult_assoc. apply Rmult_le_compat_l; [exact P0 | exact Ll].
    - apply Rmult_le_reg_r with R2; [exact Pos|].
      apply Rle_trans with (P * (L * L)); [rewrite EP; exact L1|].
      rewrite Rmult_assoc. apply Rmult_le_compat_l; [exact P0 | exact Lh]. }
  assert (sqrt P * (a * a) <= b * b /\ a * a <= sqrt P * (b * b)) as [Su Sl'].
  { pose proof (sqrt_pos P) as Sp. pose proof (sqrt_sqrt P P0) as Ep.
    split.
    - destruct (Rle_lt_dec (sqrt P * (a * a)) (b * b)) as [|C]; [assumption|].
      exfalso. assert (b * b * (b * b) < sqrt P * (a * a) * (sqrt P * (a * a)))
        by (apply Rmult_le_0_lt_compat; lra).
      replace (sqrt P * (a * a) * (sqrt P * (a * a)))
        with (sqrt P * sqrt P * a4) in H by (unfold a4; ring).
      rewrite Ep in H. fold b4 in H. lra.
    - destruct (Rle_lt_dec (a * a) (sqrt P * (b * b))) as [|C]; [assumption|].
      exfalso.
      assert (0 <= sqrt P * (b * b)) by (apply Rmult_le_pos; lra).
      assert (sqrt P * (b * b) * (sqrt P * (b * b)) < a * a * (a * a))
        by (apply Rmult_le_0_lt_compat; lra).
      replace (sqrt P * (b * b) * (sqrt P * (b * b)))
        with (sqrt P * sqrt P * b4) in H0 by (unfold b4; ring).
      rewrite Ep in H0. fold a4 in H0. lra. }
  apply Rabs_le. unfold a, b, eps in *. split; nra.
Qed.
End Tolerance.

(** ** [VectorUtils::Normalize] *)

Section Unit.
Import Binary32.
Local Open Scope float_scope.

Lemma toR_square : forall s m e,
  (toR (S754_finite s m e) * toR (S754_finite s m e) = val m e * val m e)%R.
Proof. intros [|] m e; cbn [toR]; ring. Qed.

Lemma square_moderate : forall v : float,
  moderate v -> nonzero v = true ->
  exists M E delta,
    v * v = S754_finite false M E /\ full M /\ (-143 <= E <= 99)%Z
    /\ val M E = (toR v * toR v * (1 + delta))%R /\ (Rabs delta <= eps)%R.
Proof.
  intros [s | s | | s m e] Mo N; try discriminate N.
  destruct Mo as [Fm Re].
  destruct (mul_normal s m e s m e Fm Fm) as (M & E & d & Eq & FM & RE & EV & Bd);
    try lia.
  exists M, E, d. rewrite toR_square. rewrite xorb_nilpotent in Eq.
  split; [exact Eq | split; [exact FM | split; [lia | split; assumption]]].
Qed.

Lemma square_zero : forall s, S754_zero s * S754_zero s = S754_zero false.
Proof. intros [|]; reflexivity. Qed.

(** A component scaled by the positive normal number [c]. *)
Lemma scaled_moderate : forall (v : float) Mc Ec,
  moderate v -> full Mc -> (-87 <= Ec <= 38)%Z ->
  exists delta,
    finite (v * S754_finite false Mc Ec) = true
    /\ toR (v * S754_finite false Mc Ec)
       = (toR v * val Mc Ec * (1 + delta))%R
    /\ (Rabs delta <= eps)%R.
Proof.
  intros [s | s | | s m e] Mc Ec Mo Fc Rc; try contradiction.
  - exists 0%R. cbn. split; [reflexivity|]. split; [ring|].
    rewrite Rabs_R0. unfold eps. lra.
  - destruct Mo as [Fm Re].
    destruct (mul_normal s m e false Mc Ec Fm Fc)
      as (M & E & d & Eq & FM & RE & EV & Bd); try lia.
    exists d. change (S754_finite s m e * S754_finite false Mc Ec)
      with (SFmul 24 128 (S754_finite s m e) (S754_finite false Mc Ec)).
    rewrite Eq, xorb_false_r. split; [reflexivity|]. split; [|exact Bd].
    destruct s; cbn [toR]; rewrite EV; ring.
Qed.

Lemma val_one : val 8388608 (-23) = 1%R.
Proof.
  unfold val. change (Z.pos 8388608) with (2 ^ 23)%Z.
  rewrite IZR_pow2, <- bpow_add by lia. reflexivity.
Qed.

(** From the sum of the squares to the factor [1 / length]. *)
Lemma inverse_length : forall MS ES,
  full MS -> (-143 <= ES <= 101)%Z ->
  exists ML EL Mc Ec d4 d5,
    sqrtf (S754_finite false MS ES) = S754_finite false ML EL
    /\ dyadic 1 0 / S754_finite false ML EL = S754_finite false Mc Ec
    /\ full Mc /\ (-87 <= Ec <= 38)%Z
    /\ val ML EL = (sqrt (val MS ES) * (1 + d4))%R
    /\ val Mc Ec = (1 / val ML EL * (1 + d5))%R
    /\ (Rabs d4 <= eps)%R /\ (Rabs d5 <= eps)%R.
Proof.
  intros MS ES FS RS.
  destruct (sqrt_normal MS ES FS) as (ML & EL & d4 & E4 & FL & RL & V4 & B4);
    try lia.
  assert (full 8388608) as F1 by (unfold full; cbn; lia).
  destruct (div_normal false 8388608 (-23) false ML EL F1 FL)
    as (Mc & Ec & d5 & E5 & Fc & Rc & V5 & B5); try lia.
  exists ML, EL, Mc, Ec, d4, d5.
  rewrite val_one in V5.
  split; [exact E4 | split; [exact E5 | split; [exact Fc | split; [lia|]]]].
  repeat split; assumption.
Qed.

Lemma Normalize_scaled : forall (v : Vector2 float) MS ES ML EL Mc Ec,
  x v * x v + y v * y v = S754_finite false MS ES ->
  sqrtf (S754_finite false MS ES) = S754_finite false ML EL ->
  dyadic 1 0 / S754_finite false ML EL = S754_finite false Mc Ec ->
  Normalize v = Scale v (S754_finite false Mc Ec).
Proof.
  intros v MS ES ML EL Mc Ec E1 E2 E3. unfold Normalize, Length.
  unfold float in *. rewrite E1, E2, E3. reflexivity.
Qed.

Lemma toR_nonzero : forall v : float,
  nonzero v = true -> (0 < toR v * toR v)%R.
Proof.
  intros [s | s | | s m e] N; try discriminate N.
  rewrite toR_square. pose proof (val_pos m e).
  apply Rmult_lt_0_compat; assumption.
Qed.

Lemma toR_zero : forall v : float, moderate v -> nonzero v = false -> toR v = 0%R.
Proof. intros [s | s | | s m e] Mo N; try contradiction; [reflexivity | discriminate N]. Qed.

(** The sum of the squares of two moderate numbers, not both zero. *)
Lemma sum_of_squares : forall a b : float,
  moderate a -> moderate b -> nonzero a || nonzero b = true ->
  exists MS ES d1 d2 d3,
    a * a + b * b = S754_finite false MS ES
    /\ full MS /\ (-143 <= ES <= 101)%Z
    /\ val MS ES
       = ((toR a * toR a * (1 + d1) + toR b * toR b * (1 + d2)) * (1 + d3))%R
    /\ (Rabs d1 <= eps)%R /\ (Rabs d2 <= eps)%R /\ (Rabs d3 <= eps)%R.
Proof.
  intros a b Ma Mb N.
  assert (Rabs 0 <= eps)%R as Z0 by (rewrite Rabs_R0; unfold eps; lra).
  destruct (nonzero a) eqn:Na; destruct (nonzero b) eqn:Nb;
    try discriminate N.
  - destruct (square_moderate a Ma Na) as (M1 & E1 & d1 & Q1 & F1 & R1 & V1 & B1).
    destruct (square_moderate b Mb Nb) as (M2 & E2 & d2 & Q2 & F2 & R2 & V2 & B2).
    destruct (add_normal M1 E1 M2 E2 F1 F2)
      as (MS & ES & d3 & Q3 & F3 & R3 & V3 & B3); try lia.
    exists MS, ES, d1, d2, d3. unfold float in *. rewrite Q1, Q2.
    split; [exact Q3|]. split; [exact F3|]. split; [lia|].
    rewrite V3, V1, V2. repeat split; assumption.
  - destruct (square_moderate a Ma Na) as (M1 & E1 & d1 & Q1 & F1 & R1 & V1 & B1).
    destruct b as [s | s | | s m e]; try contradiction; try discriminate Nb.
    exists M1, E1, d1, 0%R, 0%R. unfold float in *.
    rewrite Q1, square_zero.
    split; [reflexivity|]. split; [exact F1|]. split; [lia|].
    rewrite V1. cbn [toR]. split; [ring|]. repeat split; assumption.
  - destruct (square_moderate b Mb Nb) as (M2 & E2 & d2 & Q2 & F2 & R2 & V2 & B2).
    destruct a as [s | s | | s m e]; try contradiction; try discriminate Na.
    exists M2, E2, 0%R, d2, 0%R. unfold float in *.
    rewrite Q2, square_zero.
    split; [reflexivity|]. split; [exact F2|]. split; [lia|].
    rewrite V2. cbn [toR]. split; [ring|]. repeat split; assumption.
Qed.

Lemma Normalize_moderate : forall v : Vector2 float,
  moderate (x v) -> moderate (y v) ->
  nonzero (x v) || nonzero (y v) = true ->
  exists k d1 d2 : R,
    (0 < k)%R /\ (Rabs d1 <= eps)%R /\ (Rabs d2 <= eps)%R
    /\ finite (x (Normalize v)) = true /\ finite (y (Normalize v)) = true
    /\ toR (x (Normalize v)) = (toR (x v) * k * (1 + d1))%R
    /\ toR (y (Normalize v)) = (toR (y v) * k * (1 + d2))%R
    /\ (Rabs (sqrt (toR (x (Normalize v)) * toR (x (Normalize v))
                    + toR (y (Normalize v)) * toR (y (Normalize v))) - 1)
        <= / 1048576)%R.
Proof.
  intros v Mx My N.
  destruct (sum_of_squares (x v) (y v) Mx My N)
    as (MS & ES & d1 & d2 & d3 & QS & FS & RS & VS & B1 & B2 & B3).
  destruct (inverse_length MS ES FS RS)
    as (ML & EL & Mc & Ec & d4 & d5 & QL & Qc & Fc & Rc & VL & Vc & B4 & B5).
  rewrite (Normalize_scaled v MS ES ML EL Mc Ec QS QL Qc).
  unfold Scale. cbn [x y].
  destruct (scaled_moderate (x v) Mc Ec Mx Fc Rc) as (d6 & Fx & Vx & B6).
  destruct (scaled_moderate (y v) Mc Ec My Fc Rc) as (d7 & Fy & Vy & B7).
  assert (0 < toR (x v) * toR (x v) + toR (y v) * toR (y v))%R as Pos.
  { pose proof (Rle_0_sqr (toR (x v))) as Hx.
    pose proof (Rle_0_sqr (toR (y v))) as Hy. unfold Rsqr in *.
    apply orb_true_iff in N as [N|N]; apply toR_nonzero in N; lra. }
  destruct (unit_length_bound (toR (x v)) (toR (y v)) d1 d2 d3 d4 d5 d6 d7
              (val MS ES) (val ML EL) (val Mc Ec)
              B1 B2 B3 B4 B5 B6 B7 Pos VS VL Vc) as [Pk Bound].
  exists (val Mc Ec), d6, d7. unfold float in *. rewrite Vx, Vy.
  repeat split; assumption.
Qed.

Lemma Length_moderate : forall v : Vector2 float,
  moderate (x v) -> moderate (y v) ->
  nonzero (x v) || nonzero (y v) = true ->
  nonzero (Length v) = true.
Proof.
  intros v Mx My N.
  destruct (sum_of_squares (x v) (y v) Mx My N)
    as (MS & ES & d1 & d2 & d3 & QS & FS & RS & _).
  destruct (inverse_length MS ES FS RS)
    as (ML & EL & Mc & Ec & d4 & d5 & QL & _).
  unfold Length. unfold float in *. rewrite QS, QL. reflexivity.
Qed.
End Unit.

(** C9 (as amended).  In binary32, [Normalize] of the zero vector is the
    zero vector, and so is [Normalize] of every vector whose computed length
    compares equal to zero: nothing is divided by zero.  For a vector whose
    components are zero or of magnitude from 2^-60 up to 2^61, not both zero,
    no square, sum, root or quotient overflows or underflows: the computed
    length is not zero, and [Normalize] returns finite components that are
    those of the vector times one positive factor, each up to a relative
    rounding error of 2^-23 at most, so that the result points the way the
    vector does and its length is 1 to within 2^-20. *)
Theorem Normalize_zero_or_unit :
  Normalize (mkVector2 (dyadic 0 0) (dyadic 0 0) : Vector2 Binary32.float)
  = mkVector2 (dyadic 0 0) (dyadic 0 0)
  /\ (forall v : Vector2 Binary32.float,
        feqb (Length v) (of_int 0) = true ->
        Normalize v = mkVector2 (dyadic 0 0) (dyadic 0 0))
  /\ (forall v : Vector2 Binary32.float,
        moderate (x v) -> moderate (y v) ->
        nonzero (x v) || nonzero (y v) = true ->
        feqb (Length v) (of_int 0) = false
        /\ finite (x (Normalize v)) = true /\ finite (y (Normalize v)) = true
        /\ (exists k d1 d2 : R,
              (0 < k)%R /\ (Rabs d1 <= / 8388608)%R /\ (Rabs d2 <= / 8388608)%R
              /\ toR (x (Normalize v)) = (toR (x v) * k * (1 + d1))%R
              /\ toR (y (Normalize v)) = (toR (y v) * k * (1 + d2))%R)
        /\ (Rabs (sqrt (toR (x (Normalize v)) * toR (x (Normalize v))
                        + toR (y (Normalize v)) * toR (y (Normalize v))) - 1)
            <= / 1048576)%R).
Proof.
  split; [reflexivity | split].
  - intros v E. unfold Normalize. rewrite E. reflexivity.
  - intros v Mx My N.
    destruct (Normalize_moderate v Mx My N)
      as (k & d1 & d2 & Pk & B1 & B2 & Fx & Fy & Vx & Vy & Bound).
    pose proof (Length_moderate v Mx My N) as NL.
    split.
    { destruct (Length v) as [s | s | | s m e]; try discriminate NL.
      destruct s; reflexivity. }
    split; [exact Fx | split; [exact Fy | split; [|exact Bound]]].
    exists k, d1, d2. repeat split; assumption.
Qed.

(** ** Examples in the reference environment *)

Import Scenario.

Lemma session_reachable : forall rs0 inputs g rs,
  session_on rs0 inputs = Some (g, rs) -> reachable g.
Proof.
  unfold session_on; intros rs0 inputs g rs E.
  apply bind_Some in E as (g0 & rs1 & E0 & E1).
  eapply run_reachable; [eapply reachable_new|]; eassumption.
Qed.

(** C10.  There is a reachable state of play from which one frame sets
    both terminal flags: in the session [chase] the robber stands at
    (454, 538.5) at level 2 with the chaser 45.8 to its left; stepping down
    and left it comes within 40 of the chaser, which sets the caught flag, and
    the same frame still collects the five coins at (450, 570), advances to
    level 3, which opens the door, and finds the robber on the door, which
    sets the escaped flag. *)
Theorem caught_and_escaped_in_one_frame :
  exists (g g' : Game Binary32.float) (rs rs' : list Z),
    reachable g /\ playing g
    /\ update down_left g rs = Some (g', rs')
    /\ gameOver (checkCaught (moveCops (adjustSpeed (moveRobber down_left g))))
       = true
    /\ score (play down_left g) = score g + 5
    /\ level g' = level g + 1
    /\ (exists d, door g = None /\ door g' = Some d /\ isOpen d = true)
    /\ gameOver g' = true /\ robberEscaped g' = true.
Proof.
  eexists _, _, (concat (repeat [5; 5] 5) ++ concat (repeat [10; 10] 5)), _.
  split.
  { eapply (session_reachable rolls chase). vm_compute. reflexivity. }
  split; [split; reflexivity|].
  split; [vm_compute; reflexivity|].
  split; [vm_compute; reflexivity|].
  split; [vm_compute; reflexivity|].
  split; [vm_compute; reflexivity|].
  split; [eexists; repeat split|].
  split; reflexivity.
Qed.

(** The clamp moves a chaser that holds its position outside the arena
    bounds: in the corner (0,0), inside a wall that covers both sidesteps, the
    step of [Cop::move] ends at (20,20). *)
Lemma Cop_move_blocked_in_corner_moves :
  let target := target_at 10 0 in
  let direction :=
    Normalize (Subtract (position target) (position corner_cop)) in
  let candidate :=
    Add (position corner_cop) (Scale direction (speed corner_cop)) in
  let perpendicular := mkVector2 (- y direction)%flt (x direction) in
  let overlaps p :=
    CheckCollisionCircleRec p (of_int (radius corner_cop)) (rect arena_wall) in
  firstHit corner_cop candidate [arena_wall] = Some arena_wall
  /\ overlaps (Add (position corner_cop)
                   (Scale perpendicular (speed corner_cop))) = true
  /\ overlaps (Add (position corner_cop)
                   (Scale perpendicular (- speed corner_cop)%flt)) = true
  /\ position (Cop_move target [arena_wall] corner_cop) = vec 20 20
  /\ position (Cop_move target [arena_wall] corner_cop) <> position corner_cop.
Proof.
  cbv zeta. repeat split; try (vm_compute; reflexivity).
  vm_compute. discriminate.
Qed.

(** With the radius 20 of the game's chasers, the step from (0,0) toward
    (10,0) ends at (20,20), not near (1,0). *)
Lemma Cop_move_unit_step_radius_20 :
  position (Cop_move (target_at 10 0) [] (unit_cop 20)) = vec 20 20
  /\ position (Cop_move (target_at 10 0) [] (unit_cop 20)) <> vec 1 0.
Proof. split; [vm_compute; reflexivity | vm_compute; discriminate]. Qed.

(** In binary32 the square of 2^70 overflows: the computed length of
    (2^70, 0) is infinite, hence nonzero, and [Normalize] returns the zero
    vector, whose length is 0. *)
Lemma Normalize_overflow_not_unit :
  let v : Vector2 Binary32.float := mkVector2 (dyadic 1 70) (dyadic 0 0) in
  (Length v != of_int 0)%flt = true
  /\ Normalize v = mkVector2 (dyadic 0 0) (dyadic 0 0)
  /\ Length (Normalize v) <> dyadic 1 0.
Proof.
  cbv zeta. repeat split; try (vm_compute; reflexivity).
  vm_compute. discriminate.
Qed.

(** *** The theorems at concrete inputs *)

Lemma Cop_move_first_hit_only_witness :
  let target := target_at 110 100 in
  Cop_move target ([] ++ arena_wall :: []) walled_cop
  = Cop_move target [arena_wall; small_wall] walled_cop
  /\ position (Cop_move target [arena_wall] walled_cop) = vec 100 100.
Proof.
  cbv zeta. split.
  - apply (proj1 (proj2 (Cop_move_first_hit_only
                           (target_at 110 100) [arena_wall; small_wall]
                           walled_cop))
                 [] arena_wall [small_wall] []); reflexivity.
  - apply (proj2 (proj2 (Cop_move_first_hit_only
                           (target_at 110 100) [arena_wall] walled_cop))
                 arena_wall); try reflexivity.
    repeat split.
Defined.

Lemma terminal_frames_wait_for_reset_witness :
  exists g rs,
    session (chase ++ [down_left]) = Some (g, rs)
    /\ run [idle; left; down] g rs = Some (g, rs).
Proof.
  do 2 eexists. split; [vm_compute; reflexivity|].
  apply terminal_frames_wait_for_reset.
  - left; reflexivity.
  - repeat constructor.
Defined.

Lemma robber_move_or_revert_witness :
  exists g rs,
    session [] = Some (g, rs)
    /\ position (robber (play left g)) = mkVector2 (dyadic 791 (-1)) (of_int 300).
Proof.
  do 2 eexists. split; [vm_compute; reflexivity|].
  match goal with
  | |- position (robber (play ?i ?g)) = _ =>
      rewrite (proj1 (robber_move_or_revert i g (conj eq_refl eq_refl)))
  end.
  vm_compute. reflexivity.
Defined.

Lemma score_within_quota_witness :
  exists g rs, session [down] = Some (g, rs) /\ 0 <= score g <= maxCoins.
Proof.
  do 2 eexists. split; [vm_compute; reflexivity|].
  apply score_within_quota.
  eapply (session_reachable rolls [down]). vm_compute. reflexivity.
Defined.

Lemma quota_met_advances_level_witness :
  (exists g rs,
     session_on rolls_four [idle] = Some (g, rs)
     /\ score (play down g) = 5)
  /\ (exists g rs g' rs',
        session_on rolls_quick [idle; idle] = Some (g, rs)
        /\ update idle g rs = Some (g', rs')
        /\ gameOver g' = true /\ level g' = level g + 1).
Proof.
  split.
  - do 2 eexists. split; [vm_compute; reflexivity|].
    match goal with
    | |- score (play ?i ?g) = _ =>
        refine (proj1 (proj1 (quota_met_advances_level
                                i g (conj eq_refl eq_refl)) _ _ _))
    end; vm_compute; reflexivity.
  - do 4 eexists. split; [vm_compute; reflexivity|].
    match goal with
    | |- update ?i ?g ?rs = Some (?g', ?rs') /\ _ =>
        split;
        [ vm_compute; reflexivity
        | refine (proj1 (proj2 (quota_met_advances_level
                                  i g (conj eq_refl eq_refl)))
                        _ _ rs g' rs' _) ]
    end.
    + vm_compute. intro C. discriminate C.
    + vm_compute. intro C. discriminate C.
    + vm_compute. reflexivity.
Defined.

Lemma reset_leaves_robber_in_place_witness :
  exists g rs g' rs',
    session (chase ++ [down_left]) = Some (g, rs)
    /\ update restart g rs = Some (g', rs')
    /\ gameOver g = true /\ robberEscaped g = true
    /\ level g' = 1 /\ robber g' = robber g
    /\ position (robber g') = mkVector2 (dyadic 899 (-1)) (of_int 543)
    /\ position (robber g') <> vec 400 300.
Proof.
  do 4 eexists. split; [vm_compute; reflexivity|].
  split; [vm_compute; reflexivity|].
  split; [reflexivity|]. split; [reflexivity|].
  match goal with
  | |- level ?g' = 1 /\ robber ?g' = robber ?g /\ _ =>
      destruct (proj2 (reset_leaves_robber_in_place
                         restart g (or_introl eq_refl) eq_refl)
                      (concat (repeat [10; 10] 5)) g' [])
        as (L & _ & _ & _ & _ & _ & _ & _ & _ & _ & R)
  end.
  - vm_compute; reflexivity.
  - split; [exact L | split; [exact R|]].
    split; [vm_compute; reflexivity | vm_compute; discriminate].
Defined.

Lemma Cop_move_unit_step_is_clamped_witness :
  position (Cop_move (target_at 10 0) [] (unit_cop 0)) = vec 1 0
  /\ rotation (Cop_move (target_at 10 0) [] (unit_cop 0)) = dyadic 0 0.
Proof.
  destruct (Cop_move_unit_step_is_clamped
              Reference.raylib (target_at 10 0) (unit_cop 0)
              eq_refl eq_refl eq_refl eq_refl eq_refl eq_refl)
    as (_ & P & R).
  - cbn; lia.
  - split; [apply P; reflexivity | exact R].
Defined.

Lemma Normalize_zero_or_unit_witness :
  (Rabs (sqrt (toR (x (Normalize (vec 3 4))) * toR (x (Normalize (vec 3 4)))
               + toR (y (Normalize (vec 3 4))) * toR (y (Normalize (vec 3 4))))
         - 1)
   <= / 1048576)%R.
Proof.
  refine (proj2 (proj2 (proj2 (proj2
            (proj2 (proj2 Normalize_zero_or_unit) (vec 3 4) _ _ _))))).
  - vm_compute. repeat split; try reflexivity; intro C; discriminate C.
  - vm_compute. repeat split; try reflexivity; intro C; discriminate C.
  - reflexivity.
Defined.

(** ** The frame update, member by member *)

Section Members.
Context {F : Type} {SF : Scalar F} {RL : Raylib F}.

Lemma movedRobber_writes : forall input (g : Game F),
  adjustSpeed (moveRobber input g) = set_robber (movedRobber input g) g.
Proof.
  intros input g. unfold movedRobber.
  rewrite adjustSpeed_writes at 1. reflexivity.
Qed.

Lemma play_explicit : forall input (g : Game F),
  play input g
  = set_score (score g + newlyCollected (movedRobber input g) (coins g))
      (set_coins (map (fun c => if picks (movedRobber input g) c
                                then set_collected true c else c)
                      (coins g))
         (set_gameOver (caught input g || gameOver g)
            (set_cop2 (option_map (movedCop input g) (cop2 g))
               (set_cop (movedCop input g (cop g))
                  (set_robber (movedRobber input g) g))))).
Proof.
  intros input g. unfold play. rewrite collectCoins_writes.
  unfold checkCaught, moveCops, caught, movedCop.
  rewrite movedRobber_writes. generalize (movedRobber input g) as r. intro r.
  destruct g as [r0 c c2 d cs ws z sc over esc lv]. project.
  destruct c2 as [c2|]; project; cbn [option_map];
    match goal with
    | |- context [if ?b then _ else _] => destruct b
    end; reflexivity.
Qed.

Lemma advanceLevel_explicit : forall (g : Game F) rs g' rs',
  advanceLevel g rs = Some (g', rs') ->
  exists g1 rs1,
    generateCoins (set_score 0 (set_level (level g + 1) g)) rs = Some (g1, rs1)
    /\ ((level g + 1 = 2
         /\ exists r1 r2,
              rs1 = r1 :: r2 :: rs'
              /\ exists zone, g' = set_slowingZone (Some zone) g1)
        \/ (level g + 1 = 3 /\ rs' = rs1
            /\ g' = generateDoor (set_cop2 (Some secondCop) g1))
        \/ (level g + 1 <> 2 /\ level g + 1 <> 3 /\ rs' = rs1
            /\ g' = set_gameOver true g1)).
Proof.
  unfold advanceLevel; intros g rs g' rs' E.
  apply bind_Some in E as (g1 & rs1 & E1 & E2).
  exists g1, rs1. split; [exact E1|].
  apply generateCoins_Some in E1 as (Eg & _).
  assert (level g1 = level g + 1) as El by (rewrite Eg; reflexivity).
  rewrite El in E2.
  destruct (Z.eq_dec (level g + 1) 2) as [e2|n2];
    [|destruct (Z.eq_dec (level g + 1) 3) as [e3|n3]].
  - left. split; [exact e2|]. rewrite e2 in E2.
    unfold generateSlowingZone, bind, rand in E2.
    destruct rs1 as [|r1 [|r2 rs2]]; try discriminate.
    apply ret_Some in E2 as [-> ->]. eauto 6.
  - right; left. rewrite e3 in E2. apply ret_Some in E2 as [-> ->]. auto.
  - right; right. rewrite switch_default in E2 by assumption.
    apply ret_Some in E2 as [-> ->]. auto.
Qed.
End Members.

(** ** Rejection sampling *)

Section Sampling.
Context {F : Type} {SF : Scalar F} {RL : Raylib F}.

Lemma supply_rounds : forall (walls : list (Wall F)) rs,
  supply walls rs = length (filter (accepted walls) (rounds rs)).
Proof.
  intros walls rs; induction rs as [| r | r1 r2 rs IH] using pairs_ind;
    try reflexivity.
  cbn [supply rounds filter]. unfold accepted at 1. cbn [fst snd].
  destruct (insideWall walls (coinAt r1 r2)); cbn [negb length]; lia.
Qed.

Lemma sampleCoin_rounds : forall (walls : list (Wall F)) rs p rs',
  sampleCoin walls rs = Some (p, rs') ->
  exists q used k,
    filter (accepted walls) (rounds rs)
    = q :: filter (accepted walls) (rounds rs')
    /\ p = coinAt (fst q) (snd q)
    /\ rs = used ++ rs' /\ length used = (2 * k)%nat /\ (1 <= k)%nat.
Proof.
  intros walls rs; induction rs as [| r | r1 r2 rs IH] using pairs_ind;
    intros p rs' E; try discriminate.
  cbn [sampleCoin] in E.
  change (mkVector2 _ _) with (coinAt r1 r2) in E.
  change (existsb _ walls) with (insideWall walls (coinAt r1 r2)) in E.
  cbn [rounds filter]. unfold accepted at 1. cbn [fst snd].
  destruct (insideWall walls (coinAt r1 r2)) eqn:W; cbn [negb].
  - destruct (IH _ _ E) as (q & used & k & A & B & C & D & L).
    exists q, (r1 :: r2 :: used), (S k).
    split; [exact A | split; [exact B | split; [|split]]].
    + rewrite C at 1. reflexivity.
    + cbn [length]; lia.
    + lia.
  - inversion E; subst. exists (r1, r2), [r1; r2], 1%nat.
    repeat split; auto.
Qed.

Lemma pushCoins_rounds : forall i (walls : list (Wall F)) acc rs cs rs',
  pushCoins i walls acc rs = Some (cs, rs') ->
  exists front used k,
    filter (accepted walls) (rounds rs)
    = front ++ filter (accepted walls) (rounds rs')
    /\ length front = i /\ cs = acc ++ map coinOf front
    /\ rs = used ++ rs' /\ length used = (2 * k)%nat /\ (i <= k)%nat.
Proof.
  induction i as [|i IH]; intros walls acc rs cs rs' E.
  - apply ret_Some in E as [-> ->]. exists [], [], 0%nat.
    rewrite app_nil_r. repeat split; auto.
  - cbn [pushCoins] in E. apply bind_Some in E as (p & rs1 & E1 & E2).
    apply sampleCoin_rounds in E1 as (q & u1 & k1 & A1 & -> & C1 & D1 & L1).
    apply IH in E2 as (front & u2 & k2 & A2 & B2 & -> & C2 & D2 & L2).
    exists (q :: front), (u1 ++ u2), (k1 + k2)%nat.
    rewrite A1, A2, C1, C2, <- !app_assoc, length_app.
    repeat split; auto; cbn [length]; lia.
Qed.

Lemma firstn_front : forall (A : Type) (front rest : list A),
  firstn (length front) (front ++ rest) = front.
Proof.
  intros A front rest. rewrite firstn_app, Nat.sub_diag, firstn_all.
  cbn [firstn]. apply app_nil_r.
Qed.

(** X1.  [generateCoins] returns exactly when the values of [rand()] hold
    five rounds of sampling that miss every wall; it then replaces the coins
    by the points of the first five such rounds, in order and uncollected,
    writes no other member, and has read an even number of values, two for
    each round it tried. *)
Theorem generateCoins_first_five_accepted : forall (g : Game F) rs,
  ((exists g' rs', generateCoins g rs = Some (g', rs'))
   <-> (5 <= length (filter (accepted (walls g)) (rounds rs)))%nat)
  /\ forall g' rs',
       generateCoins g rs = Some (g', rs') ->
       g' = set_coins
              (map coinOf (firstn 5 (filter (accepted (walls g)) (rounds rs))))
              g
       /\ exists used k,
            rs = used ++ rs' /\ length used = (2 * k)%nat /\ (5 <= k)%nat.
Proof.
  intros g rs.
  assert (forall g' rs',
            generateCoins g rs = Some (g', rs') ->
            g' = set_coins
                   (map coinOf
                        (firstn 5 (filter (accepted (walls g)) (rounds rs))))
                   g
            /\ (exists used k,
                  rs = used ++ rs' /\ length used = (2 * k)%nat /\ (5 <= k)%nat)
            /\ (5 <= length (filter (accepted (walls g)) (rounds rs)))%nat) as A.
  { intros g' rs' E. unfold generateCoins in E.
    apply bind_Some in E as (cs & rs1 & E1 & E2).
    apply ret_Some in E2 as [-> ->].
    apply pushCoins_rounds in E1 as (front & used & k & A & B & -> & C & D & L).
    change (Z.to_nat maxCoins) with 5%nat in B, L.
    rewrite A, <- B, firstn_front, length_app. cbn [app].
    split; [reflexivity | split; [|lia]].
    exists used, k. rewrite B. auto. }
  split; [split|].
  - intros (g' & rs' & E). apply (A g' rs' E).
  - intro L. apply generateCoins_total. rewrite supply_rounds. exact L.
  - intros g' rs' E. destruct (A g' rs' E) as (A1 & A2 & _). auto.
Qed.

(** X2.  The constructor samples its coins before any wall exists: given at
    least ten values of [rand()] it reads exactly the first ten, rejects
    none, and starts the session at level 1 with score 0, no second chaser,
    zone or door, the three walls, and the five coins at the points of the
    first five rounds, whether or not these lie inside a wall; given fewer
    than ten values it is still waiting for [rand()]. *)
Theorem Game_new_samples_before_walls : forall rs,
  ((10 <= length rs)%nat ->
   exists g : Game F,
     Game_new rs = Some (g, skipn 10 rs)
     /\ coins g = map coinOf (firstn 5 (rounds rs))
     /\ walls g = arenaWalls
     /\ level g = 1 /\ score g = 0
     /\ gameOver g = false /\ robberEscaped g = false
     /\ cop g = firstCop
     /\ cop2 g = None /\ slowingZone g = None /\ door g = None)
  /\ ((length rs < 10)%nat -> Game_new rs = None).
Proof.
  intro rs. split.
  - intro L.
    do 10 (destruct rs as [|? rs]; [cbn [length] in L; lia|]).
    eexists. split; [reflexivity|]. repeat split.
  - intro L.
    do 10 (destruct rs as [|? rs]; [reflexivity|]).
    cbn [length] in L; lia.
Qed.
End Sampling.

(** ** What a session holds *)

Section Furniture.
Context {F : Type} {SF : Scalar F} {RL : Raylib F}.

Lemma movedRobber_radius : forall input (g : Game F),
  radius (movedRobber input g) = radius (robber g).
Proof.
  intros input g. unfold movedRobber.
  destruct (adjustSpeed_position (moveRobber input g)) as [_ ->].
  unfold moveRobber; fields.
Qed.

Lemma movedRobber_speed : forall input (g : Game F),
  speed (movedRobber input g) = dyadic 9 (-1)
  \/ speed (movedRobber input g) = dyadic 27 (-3).
Proof.
  intros input g. unfold movedRobber. rewrite adjustSpeed_speed.
  repeat break_match; auto.
Qed.

Lemma Game_new_Some : forall rs (g : Game F) rs',
  Game_new rs = Some (g, rs') ->
  exists cs,
    Forall (fresh [] rs) cs /\ length cs = Z.to_nat maxCoins
    /\ g = mkGame (mkCharacter (mkVector2 (of_int screenWidth / dyadic 2 0)
                                          (of_int screenHeight / dyadic 2 0))%flt
                               playerRadius BLUE (dyadic 9 (-1)))
                  firstCop None None cs arenaWalls None 0 false false 1.
Proof.
  unfold Game_new; intros rs g rs' E.
  apply bind_Some in E as (g1 & rs1 & E1 & E2).
  apply ret_Some in E2 as [-> _].
  apply generateCoins_Some in E1 as (Eg & L & Fr & _).
  exists (coins g1). split; [exact Fr | split; [exact L|]].
  rewrite Eg. reflexivity.
Qed.

(** The state after a frame of play, as writes to the state before it. *)
Lemma update_playing_writes : forall input (g : Game F) rs g' rs',
  playing g -> update input g rs = Some (g', rs') ->
  (score (play input g) < maxCoins /\ rs' = rs
   /\ g' = checkDoor (play input g))
  \/ (maxCoins <= score (play input g)
      /\ exists cs,
           Forall (fresh (walls g) rs) cs /\ length cs = Z.to_nat maxCoins
           /\ let g1 := set_coins cs (set_score 0 (set_level (level g + 1)
                                                             (play input g))) in
              (level g + 1 = 2
               /\ exists zone, g' = checkDoor (set_slowingZone (Some zone) g1))
              \/ (level g + 1 = 3
                  /\ g' = checkDoor (generateDoor (set_cop2 (Some secondCop) g1)))
              \/ (level g + 1 <> 2 /\ level g + 1 <> 3
                  /\ g' = checkDoor (set_gameOver true g1))).
Proof.
  intros input g rs g' rs' P U.
  destruct (update_playing_Some _ _ _ _ _ P U)
    as [(Lt & -> & ->) | (Ge & g2 & A & ->)]; [left; auto | right].
  split; [exact Ge|].
  destruct (play_static input g) as (El & _ & Ew & _).
  apply advanceLevel_explicit in A as (g1 & rs1 & E1 & Cases).
  apply generateCoins_Some in E1 as (Eg & L & Fr & _).
  cbn [walls set_score set_level] in Fr. rewrite Ew in Fr.
  exists (coins g1). split; [exact Fr | split; [exact L|]].
  cbv zeta. cbn [level set_score set_level coins set_coins] in Eg.
  rewrite El in Cases, Eg. rewrite <- Eg.
  destruct Cases as [(E2 & _ & _ & _ & zone & ->)
                    | [(E3 & _ & ->) | (N2 & N3 & _ & ->)]]; eauto 8.
Qed.

Lemma collectedCount_fresh : forall (walls : list (Wall F)) rs cs,
  Forall (fresh walls rs) cs -> collectedCount cs = 0.
Proof.
  unfold collectedCount; intros walls rs cs Fr.
  induction Fr as [|c cs (U & _) _ IH]; [reflexivity|].
  cbn [filter]. rewrite U. exact IH.
Qed.

Lemma collectedCount_collect : forall (r : Robber F) cs,
  collectedCount (map (fun c => if picks r c then set_collected true c else c) cs)
  = collectedCount cs + newlyCollected r cs.
Proof.
  unfold collectedCount, newlyCollected; intros r cs.
  induction cs as [|c cs IH]; [reflexivity|].
  cbn [map filter]. destruct (picks r c) eqn:Pk.
  - assert (collected c = false) as Ec.
    { unfold picks in Pk. destruct (collected c); [discriminate | reflexivity]. }
    cbn [collected set_collected]. rewrite Ec. cbn [length]. lia.
  - destruct (collected c); cbn [length]; lia.
Qed.

Lemma tallied_reachable : forall g : Game F, reachable g -> tallied g.
Proof.
  induction 1 as [rs g rs' E | g input rs g' rs' R [IL IS] U].
  - apply Game_new_Some in E as (cs & Fr & L & ->).
    split; [exact L|]. project. symmetry. eapply collectedCount_fresh; eauto.
  - destruct (playing_or_terminal g) as [P|T].
    + destruct (update_playing_writes _ _ _ _ _ P U)
        as [(_ & _ & ->) | (_ & cs & Fr & L & Cases)].
      * rewrite checkDoor_writes, play_explicit. unfold tallied. project.
        rewrite length_map, collectedCount_collect, <- IS. auto.
      * pose proof (collectedCount_fresh _ _ _ Fr) as Z0.
        cbv zeta in Cases.
        destruct Cases as [(_ & zone & ->) | [(_ & ->) | (_ & _ & ->)]];
          rewrite checkDoor_writes; unfold tallied, generateDoor; project;
          auto.
    + rewrite update_terminal in U by assumption.
      destruct (IsKeyPressed input KEY_R).
      * apply resetGame_Some in U
          as (Es & _ & _ & _ & _ & _ & _ & _ & L & Fr & _).
        split; [exact L|]. rewrite Es. symmetry.
        eapply collectedCount_fresh; eauto.
      * inversion U; subst; split; assumption.
Qed.

Lemma furnished_reachable : forall g : Game F, reachable g -> furnished g.
Proof.
  induction 1 as [rs g rs' E | g input rs g' rs' R IH U].
  - apply Game_new_Some in E as (cs & _ & _ & ->).
    unfold furnished; project.
    repeat split; auto; intros; try discriminate; try lia.
  - pose proof (reachable_invariant g R) as (Lv & Over & _ & _).
    destruct IH as (Ww & Zn & C2 & D0 & D3 & Rr & Rc & Sc & K2 & Sr).
    destruct (playing_or_terminal g) as [P|T].
    + assert (level g <= 3) as L3.
      { destruct (Z_le_gt_dec 4 (level g)) as [L4|]; [|lia].
        destruct P as [P _]; rewrite Over in P by assumption; discriminate. }
      pose proof (movedRobber_radius input g) as Mr.
      pose proof (movedRobber_speed input g) as Ms.
      assert (cop2 g = None <->
              option_map (movedCop input g) (cop2 g) = None) as C2'.
      { destruct (cop2 g); cbn [option_map]; split; intro; auto; discriminate. }
      assert (forall c2, option_map (movedCop input g) (cop2 g) = Some c2 ->
                         radius c2 = copRadius /\ speed c2 = dyadic 3 0) as K2'.
      { intros c2 E. destruct (cop2 g) as [c|]; [|discriminate].
        inversion E; subst. apply (K2 c eq_refl). }
      destruct (update_playing_writes _ _ _ _ _ P U)
        as [(_ & _ & ->) | (_ & cs & _ & _ & Cases)].
      * rewrite checkDoor_writes, play_explicit. unfold furnished. project.
        rewrite <- C2', Mr.
        repeat split; try tauto; auto;
          match goal with
          | E : option_map _ _ = Some ?c |- _ => apply (K2' c E)
          end.
      * cbv zeta in Cases.
        destruct Cases as [(E2 & zone & ->) | [(E3 & ->) | (N2 & N3 & ->)]];
          rewrite checkDoor_writes, play_explicit;
          unfold furnished, generateDoor; project;
          rewrite ?Mr.
        -- repeat split; auto; try (intros; lia); try (intro; discriminate);
             try match goal with
                 | E : option_map _ _ = Some ?c |- _ => apply (K2' c E)
                 end.
           ++ intros _. apply C2'. apply C2. lia.
           ++ intros _. apply D0. lia.
        -- repeat split; auto; try (intros; lia); try (intro; discriminate);
             try match goal with
                 | E : Some secondCop = Some _ |- _ =>
                     inversion E; subst; reflexivity
                 end.
           intro Zn'. apply Zn in Zn'. lia.
        -- assert (level g = 3) as E3 by lia.
           repeat split; auto; try (intros; lia);
             try match goal with
                 | E : option_map _ _ = Some ?c |- _ => apply (K2' c E)
                 end.
           ++ intro Zn'. apply Zn in Zn'. lia.
           ++ intro C. apply C2' in C. apply C2 in C. lia.
           ++ intros _. apply D3. lia.
    + rewrite update_terminal in U by assumption.
      destruct (IsKeyPressed input KEY_R).
      * apply resetGame_Some in U
          as (_ & El & _ & _ & E2 & Ez & Ed & Ec & _ & _ & Ew & Er).
        unfold furnished. rewrite El, E2, Ez, Ed, Ec, Ew, Er.
        repeat split; auto; intros; try discriminate; try lia.
      * inversion U; subst. unfold furnished. tauto.
Qed.
End Furniture.

(** ** The outcome of a frame of play *)

Section Outcome.
Context {F : Type} {SF : Scalar F} {RL : Raylib F}.

Lemma checkDoor_escaped : forall g : Game F,
  robberEscaped g = false ->
  robberEscaped (checkDoor g)
  = match door g with
    | Some d => isOpen d
                && CheckCollisionCircleRec (position (robber g))
                                           (of_int (radius (robber g)))
                                           (door_rect d)
    | None => false
    end.
Proof.
  intros g E. unfold checkDoor.
  destruct (door g) as [d|]; [|exact E].
  destruct (isOpen d && _); [reflexivity | exact E].
Qed.

Lemma playing_level : forall g : Game F,
  reachable g -> playing g -> 1 <= level g <= 3.
Proof.
  intros g R [P _]. destruct (reachable_invariant g R) as (Lv & Over & _).
  destruct (Z_le_gt_dec 4 (level g)) as [L4|]; [|lia].
  rewrite Over in P by assumption; discriminate.
Qed.

Lemma update_playing_members : forall input (g : Game F) rs g' rs',
  reachable g -> playing g -> update input g rs = Some (g', rs') ->
  let quota := score (play input g) >=? maxCoins in
  robber g' = movedRobber input g
  /\ cop g' = movedCop input g (cop g)
  /\ cop2 g' = (if quota && (level g =? 2) then Some secondCop
                else option_map (movedCop input g) (cop2 g))
  /\ level g' = (if quota then level g + 1 else level g)
  /\ gameOver g' = caught input g || (quota && (level g =? 3))
  /\ door g' = (if 3 <=? level g' then Some (mkDoor exitRect true) else None)
  /\ walls g' = walls g
  /\ robberEscaped g'
     = (3 <=? level g')
       && CheckCollisionCircleRec (position (robber g')) (of_int playerRadius)
                                  exitRect.
Proof.
  intros input g rs g' rs' R P U quota.
  pose proof (playing_level g R P) as Lv.
  destruct (furnished_reachable g R) as (_ & _ & _ & D0 & D3 & Rr & _).
  pose proof (movedRobber_radius input g) as Mr. rewrite Rr in Mr.
  destruct P as [Po Pe].
  assert (door g = if 3 <=? level g then Some (mkDoor exitRect true) else None)
    as Dg.
  { destruct (Z.leb_spec 3 (level g)); [apply D3 | apply D0]; lia. }
  destruct (update_playing_writes _ _ _ _ _ (conj Po Pe) U)
    as [(Lt & _ & ->) | (Ge & cs & _ & _ & Cases)].
  - assert ((score (play input g) >=? maxCoins) = false) as Q
      by (destruct (Z.geb_spec (score (play input g)) maxCoins);
          [lia | reflexivity]).
    subst quota. rewrite Q.
    rewrite checkDoor_escaped, checkDoor_writes, play_explicit;
      [|rewrite play_explicit; exact Pe].
    project. rewrite Po, Mr, Dg. cbn [andb]. rewrite ?orb_false_r.
    destruct (3 <=? level g); repeat split.
  - assert ((score (play input g) >=? maxCoins) = true) as Q
      by (destruct (Z.geb_spec (score (play input g)) maxCoins);
          [reflexivity | lia]).
    subst quota. rewrite Q.
    cbv zeta in Cases. cbn [andb].
    destruct Cases as [(E2 & zone & ->) | [(E3 & ->) | (N2 & N3 & ->)]];
      (rewrite checkDoor_escaped, checkDoor_writes, play_explicit;
       [|rewrite play_explicit; exact Pe]);
      unfold generateDoor; project; rewrite ?Po, ?Mr, ?Dg.
    + replace (level g) with 1 by lia.
      cbn [Z.add Z.leb Z.eqb Z.compare Pos.compare Pos.compare_cont Pos.eqb
           Pos.add Pos.succ andb].
      rewrite ?orb_false_r. repeat split.
    + replace (level g) with 2 by lia.
      cbn [Z.add Z.leb Z.eqb Z.compare Pos.compare Pos.compare_cont Pos.eqb
           Pos.add Pos.succ andb].
      rewrite ?orb_false_r. repeat split.
    + replace (level g) with 3 by lia.
      cbn [Z.add Z.leb Z.eqb Z.compare Pos.compare Pos.compare_cont Pos.eqb
           Pos.add Pos.succ andb].
      rewrite ?orb_true_r. repeat split.
Qed.
End Outcome.

(** ** The slowing zone *)

Section Slowing.
Context {F : Type} {SF : Scalar F} {RL : Raylib F}.




End Slowing.




(** ** Properties of the whole session *)

Section Session.
Context {F : Type} {SF : Scalar F} {RL : Raylib F}.

(** X3.  In every state that a session reaches, the level is 1, 2, 3 or 4,
    and it is 4 only when the game is over; the walls are the three of
    [generateWalls]; the slowing zone is there from level 2 on, the second
    chaser and the door from level 3 on, the door open and at its one
    rectangle; robber and chasers have radius 20, the chasers speed 3, and
    the robber speed 4.5 or 3.375. *)
Theorem session_entities_follow_level : forall g : Game F,
  reachable g ->
  1 <= level g <= 4
  /\ (level g = 4 -> gameOver g = true)
  /\ walls g = arenaWalls
  /\ (slowingZone g = None <-> level g = 1)
  /\ (cop2 g = None <-> level g <= 2)
  /\ door g = (if 3 <=? level g then Some (mkDoor exitRect true) else None)
  /\ radius (robber g) = 20 /\ radius (cop g) = 20
  /\ speed (cop g) = dyadic 3 0
  /\ (forall c2, cop2 g = Some c2 -> radius c2 = 20 /\ speed c2 = dyadic 3 0)
  /\ (speed (robber g) = dyadic 9 (-1) \/ speed (robber g) = dyadic 27 (-3)).
Proof.
  intros g R.
  destruct (reachable_invariant g R) as (Lv & Over & _).
  destruct (furnished_reachable g R)
    as (Ww & Zn & C2 & D0 & D3 & Rr & Rc & Sc & K2 & Sr).
  repeat split; try tauto; try lia; auto; try (apply K2; assumption).
  - intro L4; apply Over; lia.
  - destruct (Z.leb_spec 3 (level g)); [apply D3 | apply D0]; lia.
Qed.

(** X4.  In every state that a session reaches there are five coins, and
    the score is the number of them that are collected. *)
Theorem score_counts_collected_coins : forall g : Game F,
  reachable g ->
  length (coins g) = 5%nat /\ score g = collectedCount (coins g).
Proof. intros g R. exact (tallied_reachable g R). Qed.

(** X5.  A frame of play from a reachable state raises the level by one
    when the coin loop brings the score to the quota and leaves it otherwise,
    and it ends with the game over exactly when a chaser caught the robber in
    that frame or the quota was met at level 3. *)
Theorem frame_sets_level_and_game_over :
  forall input (g : Game F) rs g' rs',
    reachable g -> playing g -> update input g rs = Some (g', rs') ->
    level g' = (if score (play input g) >=? maxCoins
                then level g + 1 else level g)
    /\ gameOver g'
       = caught input g
         || ((score (play input g) >=? maxCoins) && (level g =? 3)).
Proof.
  intros input g rs g' rs' R P U.
  destruct (update_playing_members input g rs g' rs' R P U)
    as (_ & _ & _ & El & Eo & _).
  split; assumption.
Qed.

(** X6.  A frame of play from a reachable state ends with the robber
    escaped exactly when the level it ends at is 3 or more and the robber's
    circle, where the frame left it, overlaps the door's rectangle; in
    particular nothing escapes at levels 1 and 2. *)
Theorem frame_escapes_through_door_only :
  forall input (g : Game F) rs g' rs',
    reachable g -> playing g -> update input g rs = Some (g', rs') ->
    robberEscaped g'
    = (3 <=? level g')
      && CheckCollisionCircleRec (position (robber g')) (of_int playerRadius)
                                 exitRect
    /\ (level g' <= 2 -> robberEscaped g' = false).
Proof.
  intros input g rs g' rs' R P U.
  destruct (update_playing_members input g rs g' rs' R P U)
    as (_ & _ & _ & _ & _ & _ & _ & Ee).
  split; [exact Ee|].
  intro L2. rewrite Ee.
  destruct (Z.leb_spec 3 (level g')); [lia | reflexivity].
Qed.

(** X7.  A frame of play that does not bring the score to the quota calls
    no [rand()] and keeps the coins in place: each coin keeps its position,
    a collected coin stays collected, and an uncollected one becomes
    collected exactly when the robber's circle overlaps it. *)
Theorem quiet_frame_keeps_coins : forall input (g : Game F) rs g' rs',
  playing g -> score (play input g) < maxCoins ->
  update input g rs = Some (g', rs') ->
  rs' = rs
  /\ Forall2 (fun c c' =>
                coin_position c' = coin_position c
                /\ collected c' = collected c || picks (movedRobber input g) c)
             (coins g) (coins g').
Proof.
  intros input g rs g' rs' P Lt U.
  destruct (update_playing_writes _ _ _ _ _ P U)
    as [(_ & -> & ->) | (Ge & _)]; [|lia].
  split; [reflexivity|].
  rewrite checkDoor_writes, play_explicit. project.
  induction (coins g) as [|c cs IH]; constructor; [|exact IH].
  destruct (picks (movedRobber input g) c) eqn:Pk.
  - cbn [coin_position collected set_collected]. rewrite orb_true_r. auto.
  - rewrite orb_false_r. auto.
Qed.

(** X8.  The reset of a reachable terminal state gives the state that the
    constructor builds, but for the robber, which is left as it is, and the
    coins, which are sampled anew. *)
Theorem reset_rebuilds_all_but_robber_and_coins :
  forall input (g : Game F) rs g' rs' rs0 g0 rs0',
    reachable g -> terminal g -> IsKeyPressed input KEY_R = true ->
    update input g rs = Some (g', rs') ->
    Game_new rs0 = Some (g0, rs0') ->
    g' = set_robber (robber g) (set_coins (coins g') g0).
Proof.
  intros input g rs g' rs' rs0 g0 rs0' R T K U N.
  destruct (furnished_reachable g R) as (Ww & _).
  apply Game_new_Some in N as (cs & _ & _ & ->).
  rewrite update_terminal, K in U by assumption.
  unfold resetGame in U. apply generateCoins_Some in U as (-> & _).
  destruct g; cbn [walls] in Ww; subst. reflexivity.
Qed.
End Session.

(** ** The arena bounds *)

Section Axes.
Context {F : Type} {SF : Scalar F} {RL : Raylib F}.
Local Open Scope float_scope.

Lemma Robber_move_axes : forall input (r : Robber F),
  position (Robber_move input r)
  = mkVector2
      (axisStep (IsKeyDown input KEY_A) (IsKeyDown input KEY_D) GetScreenWidth
                (radius r) (speed r) (x (position r)))
      (axisStep (IsKeyDown input KEY_W) (IsKeyDown input KEY_S) GetScreenHeight
                (radius r) (speed r) (y (position r))).
Proof.
  intros input [[a b] rad col s]. unfold Robber_move, axisStep. project.
  destruct (IsKeyDown input KEY_W && _); cbn [x y];
    destruct (IsKeyDown input KEY_S && _); cbn [x y];
    destruct (IsKeyDown input KEY_A && _); cbn [x y];
    destruct (IsKeyDown input KEY_D && _); reflexivity.
Qed.

Lemma clamp_axes : forall radius (p : Vector2 F),
  clamp radius p
  = mkVector2 (axisClamp GetScreenWidth radius (x p))
              (axisClamp GetScreenHeight radius (y p)).
Proof.
  intros radius [a b]. unfold clamp, axisClamp. cbn [x y].
  destruct (a - of_int radius <? of_int 0); cbn [x y];
    destruct (_ + of_int radius >? of_int GetScreenWidth); cbn [x y];
    destruct (b - of_int radius <? of_int 0); cbn [x y];
    destruct (_ + of_int radius >? of_int GetScreenHeight); reflexivity.
Qed.

Lemma axisClamp_settles : forall limit radius (v : F),
  clampSettles limit radius ->
  (axisClamp limit radius v - of_int radius <? of_int 0) = false
  /\ (axisClamp limit radius v + of_int radius >? of_int limit) = false.
Proof.
  intros limit radius v (A & B & C & D). unfold axisClamp.
  destruct (v - of_int radius <? of_int 0) eqn:T1.
  - rewrite B. auto.
  - destruct (v + of_int radius >? of_int limit) eqn:T2; auto.
Qed.

Lemma clamp_lands : forall radius (p : Vector2 F),
  clampSettles GetScreenWidth radius -> clampSettles GetScreenHeight radius ->
  inBounds radius (clamp radius p).
Proof.
  intros radius p SW SH. rewrite clamp_axes. unfold inBounds. cbn [x y].
  destruct (axisClamp_settles _ _ (x p) SW).
  destruct (axisClamp_settles _ _ (y p) SH). auto.
Qed.

Lemma Cop_move_clamped : forall (target : Character F) walls (c : Cop F),
  exists p, position (Cop_move target walls c) = clamp (radius c) p.
Proof. intros target walls c. eexists. reflexivity. Qed.

Lemma Cop_move_blocked : forall (target : Character F) walls (c : Cop F) wall,
  let direction := Normalize (Subtract (position target) (position c)) in
  let candidate := Add (position c) (Scale direction (speed c)) in
  let perpendicular := mkVector2 (- y direction) (x direction) in
  let overlaps p :=
    CheckCollisionCircleRec p (of_int (radius c)) (rect wall) in
  firstHit c candidate walls = Some wall ->
  overlaps (Add (position c) (Scale perpendicular (speed c))) = true ->
  overlaps (Add (position c) (Scale perpendicular (- speed c))) = true ->
  inBounds (radius c) (position c) ->
  position (Cop_move target walls c) = position c.
Proof.
  intros target walls c wall direction candidate perpendicular overlaps
         Hit B1 B2 In.
  unfold Cop_move; project. fold direction candidate.
  rewrite avoid_firstHit, Hit. unfold deflect.
  fold perpendicular. fold (overlaps (Add (position c)
                                          (Scale perpendicular (speed c)))).
  rewrite B1. cbn [negb].
  fold (overlaps (Add (position c) (Scale perpendicular (- speed c)))).
  rewrite B2. cbn [negb]. apply clamp_inBounds. exact In.
Qed.
End Axes.

Section Arena.
Import Binary32 Eighths.
Context {RL : Raylib float}.
Hypothesis Width : GetScreenWidth = screenWidth.
Hypothesis Height : GetScreenHeight = screenHeight.

Lemma clampSettles_width : forall r, 0 <= r <= 300 ->
  clampSettles (F := float) screenWidth r.
Proof.
  apply (bounded_cases _ 300).
  set (radii := map Z.of_nat (seq 0 301)). vm_compute in radii. subst radii.
  repeat (constructor; [vm_compute; auto|]). constructor.
Qed.

Lemma clampSettles_height : forall r, 0 <= r <= 300 ->
  clampSettles (F := float) screenHeight r.
Proof.
  apply (bounded_cases _ 300).
  set (radii := map Z.of_nat (seq 0 301)). vm_compute in radii. subst radii.
  repeat (constructor; [vm_compute; auto|]). constructor.
Qed.

Lemma Cop_move_inBounds :
  forall (target : Character float) walls (c : Cop float),
    0 <= radius c <= 300 ->
    inBounds (radius c) (position (Cop_move target walls c)).
Proof.
  intros target walls c Rc.
  destruct (Cop_move_clamped target walls c) as (p & ->).
  apply clamp_lands; rewrite ?Width, ?Height;
    [apply clampSettles_width | apply clampSettles_height]; exact Rc.
Qed.

(** X9.  In the 800 by 600 arena, whatever the chaser's position, its
    target and the walls, a steering step of a chaser of radius 0 to 300 ends
    at a position at which none of the four bound tests of [Cop::move] fires
    any more: clamping it again changes nothing. *)
Theorem Cop_move_lands_in_arena :
  forall (target : Character float) walls (c : Cop float),
    0 <= radius c <= 300 ->
    inBounds (radius c) (position (Cop_move target walls c))
    /\ clamp (radius c) (position (Cop_move target walls c))
       = position (Cop_move target walls c).
Proof.
  intros target walls c Rc.
  pose proof (Cop_move_inBounds target walls c Rc) as In.
  split; [exact In | apply clamp_inBounds; exact In].
Qed.

Lemma movedCop_inBounds : forall input (g : Game float) (c : Cop float),
  radius c = copRadius -> inBounds copRadius (position (movedCop input g c)).
Proof.
  intros input g c Rc. rewrite <- Rc. unfold movedCop.
  apply Cop_move_inBounds. rewrite Rc. unfold copRadius; lia.
Qed.

Lemma fixed_cops_inBounds :
  inBounds copRadius (position (firstCop (F := float)))
  /\ inBounds copRadius (position (secondCop (F := float))).
Proof.
  unfold inBounds. rewrite Width, Height. vm_compute. auto 10.
Qed.

Lemma cops_inBounds_reachable : forall g : Game float,
  reachable g ->
  inBounds copRadius (position (cop g))
  /\ forall c2, cop2 g = Some c2 -> inBounds copRadius (position c2).
Proof.
  destruct fixed_cops_inBounds as [In1 In2].
  induction 1 as [rs g rs' E | g input rs g' rs' R [IH1 IH2] U].
  - apply Game_new_Some in E as (cs & _ & _ & ->). project.
    split; [exact In1 | intros c2 E; discriminate].
  - destruct (furnished_reachable g R)
      as (_ & _ & _ & _ & _ & _ & Rc & _ & K2 & _).
    destruct (playing_or_terminal g) as [P|T].
    + destruct (update_playing_members input g rs g' rs' R P U)
        as (_ & Ec & E2 & _).
      rewrite Ec, E2. split.
      * apply movedCop_inBounds; exact Rc.
      * intros c2 E. destruct (_ && _).
        -- inversion E; subst. exact In2.
        -- destruct (cop2 g) as [c|]; [|discriminate].
           inversion E; subst. destruct (K2 c eq_refl) as [Rc2 _].
           apply movedCop_inBounds; exact Rc2.
    + rewrite update_terminal in U by assumption.
      destruct (IsKeyPressed input KEY_R).
      * apply resetGame_Some in U
          as (_ & _ & _ & _ & E2 & _ & _ & Ec & _).
        rewrite Ec, E2. split; [exact In1 | intros c2 E; discriminate].
      * inversion U; subst. auto.
Qed.

(** X10.  In a session in the 800 by 600 arena both chasers stay within the
    bounds that [Cop::move] tests, in every state the session reaches; so a
    chaser of a reachable state whose candidate position overlaps a wall, and
    whose two sidesteps overlap the first such wall, stays exactly where it
    is. *)
Theorem chasers_stay_in_arena : forall (g : Game float) (c : Cop float),
  reachable g -> (c = cop g \/ cop2 g = Some c) ->
  inBounds 20 (position c)
  /\ forall (target : Character float) wall,
       let direction := Normalize (Subtract (position target) (position c)) in
       let candidate := Add (position c) (Scale direction (speed c)) in
       let perpendicular := mkVector2 (- y direction)%flt (x direction) in
       let overlaps p :=
         CheckCollisionCircleRec p (of_int (radius c)) (rect wall) in
       firstHit c candidate (walls g) = Some wall ->
       overlaps (Add (position c) (Scale perpendicular (speed c))) = true ->
       overlaps (Add (position c) (Scale perpendicular (- speed c)%flt)) = true ->
       position (Cop_move target (walls g) c) = position c.
Proof.
  intros g c R Which.
  destruct (cops_inBounds_reachable g R) as [In1 In2].
  destruct (furnished_reachable g R)
    as (_ & _ & _ & _ & _ & _ & Rc & _ & K2 & _).
  assert (inBounds copRadius (position c) /\ radius c = copRadius) as [In Rd].
  { destruct Which as [-> | E]; [auto|].
    split; [apply In2; exact E | apply (K2 c E)]. }
  split; [exact In|].
  intros target wall direction candidate perpendicular overlaps Hit B1 B2.
  apply (Cop_move_blocked target (walls g) c wall Hit B1 B2).
  rewrite Rd. exact In.
Qed.
End Arena.

(** ** The robber and the edge of the arena *)

Section Band.
Import Binary32 Eighths.

Lemma same_eq : forall a b : float, same a b = true -> a = b.
Proof.
  intros [s| s | | s m e] [t | t | | t n f] E; cbn [same] in E;
    try discriminate; try reflexivity.
  - apply Bool.eqb_prop in E; subst; reflexivity.
  - apply Bool.eqb_prop in E; subst; reflexivity.
  - apply andb_true_iff in E as [E E3]. apply andb_true_iff in E as [E1 E2].
    apply Bool.eqb_prop in E1. apply Pos.eqb_eq in E2. apply Z.eqb_eq in E3.
    subst; reflexivity.
Qed.

Lemma upTo_forallb : forall (f : Z -> bool) lo n,
  forallb f (upTo lo n) = true ->
  forall k, lo <= k < lo + Z.of_nat n -> f k = true.
Proof.
  intros f lo n A k B. rewrite forallb_forall in A. apply A.
  unfold upTo. apply in_map_iff. exists (Z.to_nat (k - lo)).
  split; [lia | apply in_seq; lia].
Qed.

Lemma inBand_bounds : forall limit k,
  inBand limit k = true <-> 125 <= k <= 8 * limit - 125.
Proof. unfold inBand; intros limit k. rewrite andb_true_iff. lia. Qed.

Lemma stepStays_width : forall k,
  inBand screenWidth k = true -> stepStays screenWidth k = true.
Proof.
  intros k B. apply inBand_bounds in B.
  apply (upTo_forallb (stepStays screenWidth) 125 (Z.to_nat 6151));
    [vm_compute; reflexivity | unfold screenWidth in B; lia].
Qed.

Lemma stepStays_height : forall k,
  inBand screenHeight k = true -> stepStays screenHeight k = true.
Proof.
  intros k B. apply inBand_bounds in B.
  apply (upTo_forallb (stepStays screenHeight) 125 (Z.to_nat 4551));
    [vm_compute; reflexivity | unfold screenHeight in B; lia].
Qed.

Lemma stepStays_sound : forall limit k toZero toLimit speed,
  stepStays limit k = true ->
  speed = dyadic 9 (-1) \/ speed = dyadic 27 (-3) ->
  exists k',
    axisStep toZero toLimit limit playerRadius speed (eighths k) = eighths k'
    /\ inBand limit k' = true.
Proof.
  unfold stepStays; intros limit k toZero toLimit speed A S.
  cbn [forallb fst snd] in A. rewrite !andb_true_iff in A.
  destruct A as (((A1 & B1) & (A2 & B2) & (A3 & B3) & (A4 & B4) & _)
                 & ((C1 & D1) & (C2 & D2) & (C3 & D3) & (C4 & D4) & _) & _).
  destruct S as [-> | ->]; destruct toZero, toLimit;
    eexists; (split; [apply same_eq; eassumption | assumption]).
Qed.

Context {RL : Raylib float}.
Hypothesis Width : GetScreenWidth = screenWidth.
Hypothesis Height : GetScreenHeight = screenHeight.

Lemma Robber_move_banded : forall input (r : Robber float) kx ky,
  radius r = playerRadius ->
  speed r = dyadic 9 (-1) \/ speed r = dyadic 27 (-3) ->
  position r = mkVector2 (eighths kx) (eighths ky) ->
  inBand screenWidth kx = true -> inBand screenHeight ky = true ->
  exists kx' ky',
    position (Robber_move input r) = mkVector2 (eighths kx') (eighths ky')
    /\ inBand screenWidth kx' = true /\ inBand screenHeight ky' = true.
Proof.
  intros input r kx ky Rr Sr Pr Bx By.
  rewrite Robber_move_axes, Width, Height, Rr, Pr. cbn [x y].
  destruct (stepStays_sound screenWidth kx (IsKeyDown input KEY_A)
              (IsKeyDown input KEY_D) (speed r) (stepStays_width kx Bx) Sr)
    as (kx' & -> & Bx').
  destruct (stepStays_sound screenHeight ky (IsKeyDown input KEY_W)
              (IsKeyDown input KEY_S) (speed r) (stepStays_height ky By) Sr)
    as (ky' & -> & By').
  eauto.
Qed.

(** X11.  In a session in the 800 by 600 arena the coordinates of the
    robber are whole numbers of eighths in every state the session reaches,
    so that binary32 moves it without rounding, and they stay between 15.625
    and 784.375 across and between 15.625 and 584.375 down: the robber's
    circle of radius 20 reaches past an edge of the arena by less than one
    step of 4.5, and never further. *)
Theorem robber_stays_within_a_step_of_the_arena : forall g : Game float,
  reachable g ->
  exists kx ky,
    position (robber g) = mkVector2 (dyadic kx (-3)) (dyadic ky (-3))
    /\ 125 <= kx <= 6275 /\ 125 <= ky <= 4675.
Proof.
  assert (forall g : Game float, reachable g ->
            exists kx ky,
              position (robber g) = mkVector2 (eighths kx) (eighths ky)
              /\ inBand screenWidth kx = true
              /\ inBand screenHeight ky = true) as A.
  { induction 1 as [rs g rs' E | g input rs g' rs' R IH U].
    - apply Game_new_Some in E as (cs & _ & _ & ->). project.
      exists 3200, 2400. repeat split.
    - destruct (furnished_reachable g R)
        as (_ & _ & _ & _ & _ & Rr & _ & _ & _ & Sr).
      destruct (playing_or_terminal g) as [P|T].
      + destruct (update_playing_members input g rs g' rs' R P U) as (-> & _).
        unfold movedRobber.
        destruct (adjustSpeed_position (moveRobber input g)) as [-> _].
        unfold moveRobber; project.
        destruct (existsb _ (walls g)); project; [exact IH|].
        destruct IH as (kx & ky & Pr & Bx & By).
        apply (Robber_move_banded input (robber g) kx ky); assumption.
      + rewrite update_terminal in U by assumption.
        destruct (IsKeyPressed input KEY_R).
        * apply resetGame_Some in U
            as (_ & _ & _ & _ & _ & _ & _ & _ & _ & _ & _ & ->).
          exact IH.
        * inversion U; subst; exact IH. }
  intros g R. destruct (A g R) as (kx & ky & Pr & Bx & By).
  apply inBand_bounds in Bx, By. unfold screenWidth in Bx.
  unfold screenHeight in By.
  exists kx, ky. split; [exact Pr | lia].
Qed.
End Band.

(** ** The robber and the walls *)

Section Walls.
Context {F : Type} {SF : Scalar F} {RL : Raylib F}.
Local Open Scope float_scope.

(** X12.  If the circle of the robber does not overlap a wall where the
    constructor puts it, it overlaps none of the three walls in any state
    that a session reaches: the robber never ends a frame inside a wall. *)
Theorem robber_never_ends_in_a_wall :
  existsb (fun wall => CheckCollisionCircleRec
                         (mkVector2 (of_int screenWidth / dyadic 2 0)
                                    (of_int screenHeight / dyadic 2 0))
                         (of_int playerRadius) (rect wall))
          arenaWalls = false ->
  forall g : Game F,
    reachable g ->
    existsb (fun wall => CheckCollisionCircleRec
                           (position (robber g)) (of_int playerRadius)
                           (rect wall))
            arenaWalls = false.
Proof.
  intros Start.
  induction 1 as [rs g rs' E | g input rs g' rs' R IH U].
  - apply Game_new_Some in E as (cs & _ & _ & ->). exact Start.
  - destruct (furnished_reachable g R) as (Ww & _ & _ & _ & _ & Rr & _).
    destruct (playing_or_terminal g) as [P|T].
    + destruct (update_playing_members input g rs g' rs' R P U) as (-> & _).
      unfold movedRobber.
      destruct (adjustSpeed_position (moveRobber input g)) as [-> _].
      unfold moveRobber; project.
      replace (radius (Robber_move input (robber g))) with playerRadius
        by (rewrite <- Rr; reflexivity).
      rewrite Ww.
      match goal with
      | |- context [if ?b then _ else _] => destruct b eqn:Blocked
      end; project; [exact IH | exact Blocked].
    + rewrite update_terminal in U by assumption.
      destruct (IsKeyPressed input KEY_R).
      * apply resetGame_Some in U
          as (_ & _ & _ & _ & _ & _ & _ & _ & _ & _ & _ & ->).
        exact IH.
      * inversion U; subst; exact IH.
Qed.
End Walls.

(** ** The picture of a frame *)

Section Picture.
Context {F : Type} {SF : Scalar F} {RL : Raylib F} {CV : Canvas F}.







Lemma walls_never_gold : forall ws : list (Wall F),
  filter gold (flat_map Wall_draw ws) = [].
Proof. induction ws as [|w ws IH]; [reflexivity | exact IH]. Qed.

Lemma coins_all_gold : forall cs : list (Coin F),
  filter gold (flat_map Coin_draw cs)
  = map (fun c => DrawCircleV (coin_position c) (of_int 10) (Plain GOLD))
        (filter (fun c => negb (collected c)) cs).
Proof.
  induction cs as [|c cs IH]; [reflexivity|].
  cbn [flat_map filter]. unfold Coin_draw at 1.
  destruct (collected c); cbn [negb app filter gold map]; rewrite IH;
    reflexivity.
Qed.

Lemma uncollected_count : forall cs : list (Coin F),
  Z.of_nat (length (filter (fun c => negb (collected c)) cs))
  = Z.of_nat (length cs) - collectedCount cs.
Proof.
  unfold collectedCount. induction cs as [|c cs IH]; [reflexivity|].
  cbn [filter]. destruct (collected c); cbn [negb length]; lia.
Qed.

Lemma movedRobber_color : forall input (g : Game F),
  color (movedRobber input g) = color (robber g).
Proof.
  intros input g. unfold movedRobber, adjustSpeed, moveRobber. fields.
Qed.

Lemma liveried_reachable : forall g : Game F, reachable g -> liveried g.
Proof.
  induction 1 as [rs g rs' E | g input rs g' rs' R (Ir & Ic & I2) U].
  - apply Game_new_Some in E as (cs & _ & _ & ->).
    unfold liveried; project. repeat split. intros c2 E; discriminate E.
  - destruct (playing_or_terminal g) as [P|T].
    + destruct (update_playing_members input g rs g' rs' R P U)
        as (Er & Ec & E2 & _).
      unfold liveried. rewrite Er, Ec, E2, movedRobber_color.
      split; [exact Ir | split; [exact Ic|]].
      intros c2 E. destruct (_ && _).
      * inversion E; subst. reflexivity.
      * destruct (cop2 g) as [c|]; [|discriminate E].
        inversion E; subst. apply (I2 c eq_refl).
    + rewrite update_terminal in U by assumption.
      destruct (IsKeyPressed input KEY_R).
      * apply resetGame_Some in U
          as (_ & _ & _ & _ & E2 & _ & _ & Ec & _ & _ & _ & Er).
        unfold liveried. rewrite E2, Ec, Er.
        split; [exact Ir | split; [reflexivity|]]. intros c2 E; discriminate E.
      * inversion U; subst. repeat split; assumption.
Qed.

(** X16.  In the picture of every state that a session reaches, the calls
    that paint in gold are the circles of radius 10 at the coins not yet
    collected, in the order of the coins, and there are 5 less the score of
    them: neither the robber nor a chaser is ever gold. *)
Theorem picture_shows_the_coins_left : forall g : Game F,
  reachable g ->
  filter gold (draw g)
  = map (fun c => DrawCircleV (coin_position c) (of_int 10) (Plain GOLD))
        (filter (fun c => negb (collected c)) (coins g))
  /\ Z.of_nat (length (filter gold (draw g))) = maxCoins - score g.
Proof.
  intros g R.
  destruct (liveried_reachable g R) as (Ir & Ic & I2).
  destruct (tallied_reachable g R) as (L & S).
  assert (filter gold (draw g) = filter gold (flat_map Coin_draw (coins g)))
    as E.
  { unfold draw. rewrite !filter_app, walls_never_gold.
    assert (filter gold match cop2 g with
                        | Some c2 => Cop_draw c2
                        | None => []
                        end = []) as ->.
    { destruct (cop2 g) as [c2|]; [|reflexivity].
      unfold Cop_draw; cbn [filter gold]. rewrite (I2 c2 eq_refl).
      reflexivity. }
    unfold Character_draw, Cop_draw. cbn [filter gold]. rewrite Ir, Ic.
    destruct (slowingZone g), (door g) as [d|], (gameOver g),
      (robberEscaped g);
      try (unfold Door_draw; destruct (isOpen d));
      cbn [filter gold app SlowingZone_draw centred]; rewrite ?Ir, ?app_nil_r;
      reflexivity. }
  rewrite E, coins_all_gold. split; [reflexivity|].
  rewrite length_map, uncollected_count, L, S. unfold maxCoins. lia.
Qed.
End Picture.

(** ** A chaser on its target *)

Section OnTarget.
Import Binary32.
Context {RL : Raylib float}.
Local Open Scope float_scope.

Lemma sub_self : forall v : float, nonzero v = true -> v - v = of_int 0.
Proof.
  intros [s | s | | s m e] N; try discriminate N.
  cbn [fsub scalar SFsub]. rewrite Z.min_id.
  unfold shl_align. rewrite Z.sub_diag. cbn [fst].
  replace (cond_Zopp s (Z.pos m) + cond_Zopp (negb s) (Z.pos m))%Z with 0%Z
    by (destruct s; cbn [cond_Zopp negb]; lia).
  reflexivity.
Qed.

Lemma add_zero : forall v s, nonzero v = true -> v + S754_zero s = v.
Proof. intros [t | t | | t m e] s N; try discriminate N. reflexivity. Qed.

Lemma zero_scaled : forall s (v : float),
  finite v = true -> exists t, S754_zero s * v = S754_zero t.
Proof.
  intros s [t | t | | t m e] Fin; try discriminate Fin; eexists; reflexivity.
Qed.

Lemma Cop_move_on_target : forall (target : Character float) walls
                                  (c : Cop float),
  position target = position c ->
  nonzero (x (position c)) = true -> nonzero (y (position c)) = true ->
  finite (speed c) = true ->
  let direction := Normalize (Subtract (position target) (position c)) in
  direction = mkVector2 (of_int 0) (of_int 0)
  /\ avoid c direction (Add (position c) (Scale direction (speed c))) walls
     = position c.
Proof.
  intros target walls c On Nx Ny Fin direction.
  assert (direction = mkVector2 (of_int 0) (of_int 0)) as D.
  { unfold direction, Subtract. rewrite On, !sub_self by assumption.
    reflexivity. }
  split; [exact D|]. rewrite D.
  assert (finite (- speed c) = true) as Fin'.
  { destruct (speed c); try discriminate Fin; reflexivity. }
  assert (forall s t v, finite v = true ->
            Add (position c) (Scale (mkVector2 (S754_zero s) (S754_zero t)) v)
            = position c) as Still.
  { intros s t v Fv. unfold Add, Scale. cbn [x y].
    destruct (zero_scaled s v Fv) as (s' & ->).
    destruct (zero_scaled t v Fv) as (t' & ->).
    rewrite !add_zero by assumption. destruct (position c); reflexivity. }
  change (of_int 0) with (S754_zero false). rewrite (Still _ _ _ Fin).
  induction walls as [|wall walls IH]; [reflexivity|].
  cbn [avoid]. destruct (CheckCollisionCircleRec _ _ (rect wall)); [|exact IH].
  unfold deflect. cbn [x y].
  change (- S754_zero false) with (S754_zero true).
  rewrite (Still _ _ _ Fin), (Still _ _ _ Fin').
  destruct (negb _); reflexivity.
Qed.

(** X17.  A chaser that stands exactly on its target, at finite coordinates
    within the bounds, does not move: the difference of the positions is the
    zero vector, which [Normalize] returns without dividing, so the step and
    both sidesteps are of length zero, and the chaser stays where it is for
    any walls.  It turns to the angle [atan2f(0, 0)], in degrees. *)
Theorem Cop_move_on_target_stays :
  forall (target : Character float) walls (c : Cop float),
    position target = position c ->
    nonzero (x (position c)) = true -> nonzero (y (position c)) = true ->
    finite (speed c) = true ->
    inBounds (radius c) (position c) ->
    position (Cop_move target walls c) = position c
    /\ rotation (Cop_move target walls c)
       = atan2f (of_int 0) (of_int 0) * (dyadic 180 0 / PI).
Proof.
  intros target walls c On Nx Ny Fin In.
  destruct (Cop_move_on_target target walls c On Nx Ny Fin) as [D A].
  unfold Cop_move. cbv zeta in D, A. project. cbn [rotation].
  rewrite A, D. split; [apply clamp_inBounds; exact In | reflexivity].
Qed.
End OnTarget.

(** ** Further examples in the reference environment *)

Import Eighths.

(** X13.  The bound tests of [Robber::move] look at the position before the
    step: 63 frames with W held take the robber from (400, 300) to
    (400, 16.5), where its circle of radius 20 reaches 3.5 past the upper
    edge of the arena, and there the key moves it no further. *)
Theorem robber_crosses_the_upper_edge :
  exists (g : Game Binary32.float) rs,
    session_on rolls_walled (repeat up 63) = Some (g, rs)
    /\ reachable g /\ playing g
    /\ position (robber g) = mkVector2 (of_int 400) (dyadic 33 (-1))
    /\ (y (position (robber g)) - of_int (radius (robber g)) <? of_int 0)%flt
       = true
    /\ position (Robber_move up (robber g)) = position (robber g).
Proof.
  do 2 eexists. split; [vm_compute; reflexivity|].
  split.
  { eapply (session_reachable rolls_walled (repeat up 63)).
    vm_compute. reflexivity. }
  split; [split; reflexivity|].
  repeat split; vm_compute; reflexivity.
Qed.

(** X14.  The coins of the constructor are not kept out of the walls:
    there is a session whose first state has a coin at (250, 160), inside the
    first wall. *)
Theorem constructor_can_put_a_coin_in_a_wall :
  exists (g : Game Binary32.float) rs c,
    session_on rolls_walled [] = Some (g, rs)
    /\ reachable g
    /\ In c (coins g)
    /\ coin_position c = mkVector2 (of_int 250) (of_int 160)
    /\ insideWall (walls g) (coin_position c) = true.
Proof.
  do 3 eexists. split; [vm_compute; reflexivity|].
  split.
  { eapply (session_reachable rolls_walled []). vm_compute. reflexivity. }
  split; [left; reflexivity|].
  split; vm_compute; reflexivity.
Qed.

(** X18.  The robber can escape without being caught, and in the very frame
    that opens the door: in the session [chase] at level 2 a step down picks
    up the five coins at (450, 570), which advances the level to 3 and puts
    the door under the robber, while the chaser is still 43 away; the frame
    ends with the robber escaped and the game not over. *)
Theorem robber_can_escape_uncaught :
  exists (g g' : Game Binary32.float) (rs rs' : list Z),
    reachable g /\ playing g /\ level g = 2 /\ door g = None
    /\ update down g rs = Some (g', rs')
    /\ caught down g = false
    /\ level g' = 3 /\ score g' = 0
    /\ robberEscaped g' = true /\ gameOver g' = false.
Proof.
  eexists _, _, (concat (repeat [5; 5] 5) ++ concat (repeat [10; 10] 5)), _.
  split.
  { eapply (session_reachable rolls chase). vm_compute. reflexivity. }
  split; [split; reflexivity|].
  split; [reflexivity|].
  split; [reflexivity|].
  split; [vm_compute; reflexivity|].
  split; [vm_compute; reflexivity|].
  repeat split.
Qed.

(** *** The further theorems at concrete inputs *)

Lemma generateCoins_first_five_accepted_witness :
  exists (g g' : Game Binary32.float) rs rs',
    session_on rolls [] = Some (g, rs)
    /\ generateCoins g rs = Some (g', rs')
    /\ g' = set_coins
              (map coinOf (firstn 5 (filter (accepted (walls g)) (rounds rs))))
              g.
Proof.
  do 4 eexists. split; [vm_compute; reflexivity|].
  match goal with
  | |- generateCoins ?g ?rs = Some (?g', ?rs') /\ _ =>
      split;
      [ vm_compute; reflexivity
      | refine (proj1 (proj2 (generateCoins_first_five_accepted g rs) g' rs' _)) ]
  end.
  vm_compute. reflexivity.
Defined.

Lemma Game_new_samples_before_walls_witness :
  exists g : Game Binary32.float,
    Game_new rolls_walled = Some (g, skipn 10 rolls_walled)
    /\ coins g = map coinOf (firstn 5 (rounds rolls_walled))
    /\ walls g = arenaWalls.
Proof.
  destruct (proj1 (Game_new_samples_before_walls
                     (F := Binary32.float) rolls_walled))
    as (g & E & Ec & Ew & _).
  - vm_compute. lia.
  - exists g. auto.
Defined.

Lemma session_entities_follow_level_witness :
  exists (g : Game Binary32.float) rs,
    session (chase ++ [down_left]) = Some (g, rs)
    /\ door g = (if 3 <=? level g then Some (mkDoor exitRect true) else None).
Proof.
  do 2 eexists. split; [vm_compute; reflexivity|].
  match goal with
  | |- door ?g = _ =>
      refine (proj1 (proj2 (proj2 (proj2 (proj2 (proj2
                (session_entities_follow_level g _)))))))
  end.
  eapply (session_reachable rolls (chase ++ [down_left])).
  vm_compute. reflexivity.
Defined.

Lemma score_counts_collected_coins_witness :
  exists (g : Game Binary32.float) rs,
    session_on rolls_four [idle] = Some (g, rs)
    /\ length (coins g) = 5%nat /\ score g = collectedCount (coins g).
Proof.
  do 2 eexists. split; [vm_compute; reflexivity|].
  apply score_counts_collected_coins.
  eapply (session_reachable rolls_four [idle]). vm_compute. reflexivity.
Defined.

Lemma frame_sets_level_and_game_over_witness :
  exists (g g' : Game Binary32.float) rs rs',
    session chase = Some (g, rs)
    /\ update down_left g rs = Some (g', rs')
    /\ level g' = level g + 1 /\ gameOver g' = true.
Proof.
  do 4 eexists. split; [vm_compute; reflexivity|].
  match goal with
  | |- update ?i ?g ?rs = Some (?g', ?rs') /\ _ =>
      split;
      [ vm_compute; reflexivity
      | destruct (frame_sets_level_and_game_over i g rs g' rs') as [E1 E2] ]
  end.
  - eapply (session_reachable rolls chase). vm_compute. reflexivity.
  - split; reflexivity.
  - vm_compute. reflexivity.
  - split; (etransitivity; [eassumption | vm_compute; reflexivity]).
Defined.

Lemma frame_escapes_through_door_only_witness :
  exists (g g' : Game Binary32.float) rs rs',
    session [down] = Some (g, rs)
    /\ update left g rs = Some (g', rs')
    /\ level g' = 2 /\ robberEscaped g' = false.
Proof.
  do 4 eexists. split; [vm_compute; reflexivity|].
  match goal with
  | |- update ?i ?g ?rs = Some (?g', ?rs') /\ _ =>
      split;
      [ vm_compute; reflexivity
      | split;
        [ vm_compute; reflexivity
        | refine (proj2 (frame_escapes_through_door_only i g rs g' rs' _ _ _)
                        _) ] ]
  end.
  - eapply (session_reachable rolls [down]). vm_compute. reflexivity.
  - split; reflexivity.
  - vm_compute. reflexivity.
  - vm_compute. intro C. discriminate C.
Defined.

Lemma quiet_frame_keeps_coins_witness :
  exists (g g' : Game Binary32.float) rs rs',
    session_on rolls_four [] = Some (g, rs)
    /\ update idle g rs = Some (g', rs')
    /\ rs' = rs.
Proof.
  do 4 eexists. split; [vm_compute; reflexivity|].
  match goal with
  | |- update ?i ?g ?rs = Some (?g', ?rs') /\ _ =>
      split;
      [ vm_compute; reflexivity
      | refine (proj1 (quiet_frame_keeps_coins i g rs g' rs' _ _ _)) ]
  end.
  - split; reflexivity.
  - vm_compute. reflexivity.
  - vm_compute. reflexivity.
Defined.

Lemma reset_rebuilds_all_but_robber_and_coins_witness :
  exists (g g' g0 : Game Binary32.float) rs rs' rs0,
    session (chase ++ [down_left]) = Some (g, rs)
    /\ update restart g rs = Some (g', rs')
    /\ Game_new rolls = Some (g0, rs0)
    /\ g' = set_robber (robber g) (set_coins (coins g') g0).
Proof.
  do 6 eexists. split; [vm_compute; reflexivity|].
  match goal with
  | |- update ?i ?g ?rs = Some (?g', ?rs') /\ Game_new ?rs1 = Some (?g0, ?rs0) /\ _ =>
      split;
      [ vm_compute; reflexivity
      | split;
        [ vm_compute; reflexivity
        | refine (reset_rebuilds_all_but_robber_and_coins
                    i g rs g' rs' rs1 g0 rs0 _ _ _ _ _) ] ]
  end.
  - eapply (session_reachable rolls (chase ++ [down_left])).
    vm_compute. reflexivity.
  - left; reflexivity.
  - reflexivity.
  - vm_compute. reflexivity.
  - vm_compute. reflexivity.
Defined.

Lemma Cop_move_lands_in_arena_witness :
  clamp 20 (position (Cop_move (target_at 10 0) [arena_wall] corner_cop))
  = position (Cop_move (target_at 10 0) [arena_wall] corner_cop).
Proof.
  refine (proj2 (Cop_move_lands_in_arena (RL := Reference.raylib)
                   eq_refl eq_refl (target_at 10 0) [arena_wall] corner_cop _)).
  vm_compute. split; intro C; discriminate C.
Defined.

Lemma chasers_stay_in_arena_witness :
  exists (g : Game Binary32.float) rs c2,
    session (chase ++ [down_left]) = Some (g, rs)
    /\ cop2 g = Some c2
    /\ inBounds 20 (position (cop g)) /\ inBounds 20 (position c2).
Proof.
  do 3 eexists. split; [vm_compute; reflexivity|].
  split; [vm_compute; reflexivity|].
  match goal with
  | |- inBounds _ (position (character (cop ?g))) /\ inBounds _ (position (character ?c2)) =>
      split;
      [ refine (proj1 (chasers_stay_in_arena (RL := Reference.raylib)
                         eq_refl eq_refl g (cop g) _ (or_introl eq_refl)))
      | refine (proj1 (chasers_stay_in_arena (RL := Reference.raylib)
                         eq_refl eq_refl g c2 _ (or_intror eq_refl))) ]
  end;
    (eapply (session_reachable rolls (chase ++ [down_left]));
     vm_compute; reflexivity).
Defined.

Lemma robber_stays_within_a_step_of_the_arena_witness :
  exists (g : Game Binary32.float) rs kx ky,
    session_on rolls_walled (repeat up 63) = Some (g, rs)
    /\ position (robber g) = mkVector2 (dyadic kx (-3)) (dyadic ky (-3))
    /\ 125 <= kx <= 6275 /\ 125 <= ky <= 4675.
Proof.
  do 2 eexists.
  match goal with
  | |- exists kx ky, _ = Some (?g, _) /\ _ =>
      refine (match robber_stays_within_a_step_of_the_arena
                      (RL := Reference.raylib) eq_refl eq_refl g _ with
              | ex_intro _ kx (ex_intro _ ky B) =>
                  ex_intro _ kx (ex_intro _ ky (conj _ B))
              end)
  end.
  - eapply (session_reachable rolls_walled (repeat up 63)).
    vm_compute. reflexivity.
  - vm_compute. reflexivity.
Defined.

Lemma robber_never_ends_in_a_wall_witness :
  exists (g : Game Binary32.float) rs,
    session chase = Some (g, rs)
    /\ existsb (fun wall => CheckCollisionCircleRec
                              (position (robber g)) (of_int playerRadius)
                              (rect wall))
               arenaWalls = false.
Proof.
  do 2 eexists. split; [vm_compute; reflexivity|].
  match goal with
  | |- existsb _ _ = false =>
      refine (robber_never_ends_in_a_wall (RL := Reference.raylib) _ _ _)
  end.
  - vm_compute. reflexivity.
  - eapply (session_reachable rolls chase). vm_compute. reflexivity.
Defined.


Lemma picture_shows_the_coins_left_witness :
  exists (g : Game Binary32.float) rs,
    session chase = Some (g, rs)
    /\ Z.of_nat (length (filter gold (draw g))) = maxCoins - score g.
Proof.
  do 2 eexists. split; [vm_compute; reflexivity|].
  refine (proj2 (picture_shows_the_coins_left
                   (RL := Reference.raylib) (CV := Sketch.canvas) _ _)).
  eapply (session_reachable rolls chase). vm_compute. reflexivity.
Defined.

Lemma Cop_move_on_target_stays_witness :
  position (Cop_move (target_at 100 100) arenaWalls firstCop)
  = position (firstCop (F := Binary32.float)).
Proof.
  refine (proj1 (Cop_move_on_target_stays
                   (RL := Reference.raylib) _ _ _ _ _ _ _ _)).
  - reflexivity.
  - reflexivity.
  - reflexivity.
  - reflexivity.
  - unfold inBounds. vm_compute. auto 10.
Defined.
